(** * OpenCppCoverage: the orchestration of a coverage run

    A shallow embedding of [OpenCppCoverage/OpenCppCoverage.cpp]: the
    functions [GetDefaultPathPrefix], [Export], [LoadInputCoverageDatas],
    [InitLogger], [Run] of the anonymous namespace and the method
    [OpenCppCoverage::Run].

    The file drives collaborators whose code lives elsewhere in the
    repository (option parser, coverage runner, merger, exporters,
    deserializer, logger).  They are modelled as an interface: every call
    transforms an opaque outside world and either returns or throws, and
    the orchestration records each call, with its arguments and its result,
    in a trace. *)

From Stdlib Require Import ZArith Lia Ascii String.
From stdpp Require Import base option list strings gmap fin_maps.

Local Open Scope Z_scope.
Local Open Scope string_scope.
Local Open Scope list_scope.

(** ** Plain data of the source *)

(** [fs::path]; [path.string()] and [path.wstring()] are conversions of
    representation only. *)
Definition path := string.
Definition path_string (p : path) : string := p.
Definition path_wstring (p : path) : string := p.

(** What a [try] block can catch: an object derived from [std::exception],
    carrying [what()], or anything else (the [catch (...)] clause). *)
Inductive exn :=
| StdException (what : string)
| UnknownException.

Inductive Outcome (A : Type) :=
| Returned (a : A)
| Thrown (e : exn).
Arguments Returned {A} a.
Arguments Thrown {A} e.

(** [boost::log::trivial::severity_level]. *)
Inductive Severity := sev_trace | sev_debug | sev_info | sev_warning | sev_error | sev_fatal.

(** [cov::LogLevel]: the source names [Verbose] and [Quiet]; [Normal] is the
    value that takes neither branch of the switch in [InitLogger]. *)
Inductive LogLevel := Normal | Quiet | Verbose.

(** [cov::OptionsExportType], with the three values the source registers an
    exporter for. *)
Inductive OptionsExportType := Html | Cobertura | Binary.

Global Instance Severity_eq_dec : EqDecision Severity.
Proof. solve_decision. Defined.
Global Instance LogLevel_eq_dec : EqDecision LogLevel.
Proof. solve_decision. Defined.
Global Instance OptionsExportType_eq_dec : EqDecision OptionsExportType.
Proof. solve_decision. Defined.
Global Instance exn_eq_dec : EqDecision exn.
Proof. solve_decision. Defined.

Definition OptionsExportType_code (t : OptionsExportType) : nat :=
  match t with Html => 0 | Cobertura => 1 | Binary => 2 end%nat.
Definition OptionsExportType_of_code (n : nat) : option OptionsExportType :=
  match n with
  | O => Some Html
  | S O => Some Cobertura
  | S (S O) => Some Binary
  | _ => None
  end.
Global Instance OptionsExportType_countable : Countable OptionsExportType.
Proof.
  apply (inj_countable OptionsExportType_code OptionsExportType_of_code).
  intros []; reflexivity.
Defined.

(** [cov::OptionsExport]: an export kind and an optional output path. *)
Record OptionsExport := mkOptionsExport {
  GetType : OptionsExportType;
  GetOutputPath : option path
}.

(** ** What the absent headers declare

    Types this file only passes along, the two accessors it calls on them,
    the operations of [fs::path] it uses, and two constants:
    [std::numeric_limits<size_t>::max()], given by the width of [size_t],
    and [OpenCppCoverage::FailureExitCode]. *)
Class Declarations := {
  World : Type;
  CoverageData : Type;
  GetExitCode : CoverageData -> Z;
  StartInfo : Type;
  GetPath : StartInfo -> path;
  Patterns : Type;
  UnifiedDiffSettingsCollection : Type;
  ExcludedLineRegexes : Type;
  SubstitutePdbSourcePaths : Type;
  filename : path -> path;
  replace_extension : path -> string -> path;
  size_t_bits : Z;
  FailureExitCode : Z
}.

Definition size_t_max `{Declarations} : Z := 2 ^ size_t_bits - 1.

Section DataModel.
Context `{Declarations}.

(** [cov::Options], through the getters this file calls. *)
Record Options := mkOptions {
  GetStartInfo : option StartInfo;
  GetExports : list OptionsExport;
  GetInputCoveragePaths : list path;
  GetLogLevel : LogLevel;
  GetModulePatterns : Patterns;
  GetSourcePatterns : Patterns;
  GetUnifiedDiffSettingsCollection : UnifiedDiffSettingsCollection;
  GetExcludedLineRegexes : ExcludedLineRegexes;
  GetSubstitutePdbSourcePaths : SubstitutePdbSourcePaths;
  IsCoverChildrenModeEnabled : bool;
  IsContinueAfterCppExceptionModeEnabled : bool;
  IsOptimizedBuildSupportEnabled : bool;
  IsAggregateByFileModeEnabled : bool;
  IsPlugingModeEnabled : bool
}.

(** [cov::CoverageFilterSettings{modulePatterns, sourcePatterns}]. *)
Record CoverageFilterSettings := mkCoverageFilterSettings {
  cfs_modulePatterns : Patterns;
  cfs_sourcePatterns : Patterns
}.

(** [cov::RunCoverageSettings]: the five constructor arguments and the
    four properties [Run] sets afterwards. *)
Record RunCoverageSettings := mkRunCoverageSettings {
  rcs_startInfo : StartInfo;
  rcs_coverageFilterSettings : CoverageFilterSettings;
  rcs_unifiedDiffSettings : UnifiedDiffSettingsCollection;
  rcs_excludedLineRegexes : ExcludedLineRegexes;
  rcs_substitutePdbSourcePaths : SubstitutePdbSourcePaths;
  rcs_coverChildren : bool;
  rcs_continueAfterCppException : bool;
  rcs_maxUnmatchPathsForWarning : Z;
  rcs_optimizedBuildSupport : bool
}.

(** What is streamed into a log record with [<<]. *)
Inductive LogPiece :=
| Text (s : string)
| Num (z : Z)
| Endl
| Streamed (o : Options).

(** A call into a collaborator. *)
Definition Ext (A : Type) : Type := World -> World * Outcome A.

(** [Exporter::IExporter]: the two virtual methods [Export] uses. *)
Record IExporter := mkIExporter {
  exporter_GetDefaultPath : string -> Ext path;
  exporter_Export : CoverageData -> path -> Ext unit
}.

(** Everything the orchestration does to the outside, in order.  A
    collaborator's call carries its arguments and how it ended. *)
Inductive Event :=
| EvInitConsoleAndFileLog (file : string) (r : Outcome unit)
| EvSetLoggerMinSeverity (s : Severity) (r : Outcome unit)
| EvLog (s : Severity) (msg : list LogPiece)
| EvDeserialize (p : path) (errorMsg : string) (r : Outcome CoverageData)
| EvRunCoverage (s : RunCoverageSettings) (r : Outcome CoverageData)
| EvMerge (datas : list CoverageData) (r : Outcome CoverageData)
| EvMergeFileCoverage (c : CoverageData) (r : Outcome CoverageData)
| EvGetTemplateFolder (r : Outcome path)
| EvNewExporter (t : OptionsExportType) (r : Outcome IExporter)
| EvGetDefaultPath (t : OptionsExportType) (prefix : string) (r : Outcome path)
| EvExport (t : OptionsExportType) (c : CoverageData) (output : path) (r : Outcome unit)
| EvParse (argv : list string) (r : Outcome (option Options))
| EvDisplayWarnings (r : Outcome unit)
| EvCout (s : string)
| EvCinGet.

(** ** The monad of the orchestration: world, trace, exceptions *)

Record Result (A : Type) := mkResult {
  trace : list Event;
  world : World;
  outcome : Outcome A
}.
Arguments mkResult {A} _ _ _.
Arguments trace {A} _.
Arguments world {A} _.
Arguments outcome {A} _.

Definition M (A : Type) : Type := World -> Result A.

Definition ret {A} (a : A) : M A := fun w => mkResult [] w (Returned a).

Definition throw {A} (e : exn) : M A := fun w => mkResult [] w (Thrown e).

Definition bind {A B} (m : M A) (f : A -> M B) : M B := fun w =>
  let r := m w in
  match outcome r with
  | Returned a =>
      let r' := f a (world r) in
      mkResult (trace r ++ trace r') (world r') (outcome r')
  | Thrown e => mkResult (trace r) (world r) (Thrown e)
  end.

(** [try { m } catch (e) { h e }]: what [m] did before it threw stays done. *)
Definition try_catch {A} (m : M A) (h : exn -> M A) : M A := fun w =>
  let r := m w in
  match outcome r with
  | Returned a => r
  | Thrown e =>
      let r' := h e (world r) in
      mkResult (trace r ++ trace r') (world r') (outcome r')
  end.

Definition emit (ev : Event) : M unit := fun w => mkResult [ev] w (Returned tt).

(** Call a collaborator and record the call with its result. *)
Definition call {A} (f : Ext A) (ev : Outcome A -> Event) : M A := fun w =>
  let '(w', r) := f w in mkResult [ev r] w' r.

End DataModel.

Arguments mkResult {_ A} _ _ _.
Arguments trace {_ A} _.
Arguments world {_ A} _.
Arguments outcome {_ A} _.

Declare Scope cov_scope.
Delimit Scope cov_scope with cov.
Notation "x <- m ;; k" := (bind m (fun x => k))
  (at level 100, m at next level, right associativity) : cov_scope.
Notation "m ;; k" := (bind m (fun _ => k))
  (at level 100, right associativity) : cov_scope.
Local Open Scope cov_scope.

(** ** The collaborators

    One field per function or constructor of another translation unit that
    this file calls.  [Parse] receives [argv]; the stream for the
    explanation of empty options and the shared warning manager are part of
    the world. *)
Class Collaborators `{Declarations} := {
  InitConsoleAndFileLog : string -> Ext unit;
  SetLoggerMinSeverity : Severity -> Ext unit;
  Deserialize : path -> string -> Ext CoverageData;
  RunCoverage : RunCoverageSettings -> Ext CoverageData;
  Merge : list CoverageData -> Ext CoverageData;
  MergeFileCoverage : CoverageData -> Ext CoverageData;
  GetTemplateFolder : Ext path;
  HtmlExporter : path -> Ext IExporter;
  CoberturaExporter : Ext IExporter;
  BinaryExporter : Ext IExporter;
  Parse : list string -> Ext (option Options);
  DisplayWarnings : Ext unit
}.

Section Orchestration.
Context `{Collaborators}.

(** The macros of [Tools/Log.hpp], which is not part of the sources at hand:
    each submits a record at the severity it is named after. *)
Definition LOG_INFO (msg : list LogPiece) : M unit := emit (EvLog sev_info msg).
Definition LOG_ERROR (msg : list LogPiece) : M unit := emit (EvLog sev_error msg).

(** *** GetDefaultPathPrefix *)
Definition GetDefaultPathPrefix (options : Options) : string :=
  let startInfo := GetStartInfo options in
  match startInfo with
  | Some startInfo =>
      let path := GetPath startInfo in
      let runningCommandFilenamePath := replace_extension (filename path) "" in
      path_wstring runningCommandFilenamePath
  | None => "CoverageOutput"
  end.

(** *** Export *)

(** [std::map::emplace] keeps an entry that is already there. *)
Definition emplace (k : OptionsExportType) (v : IExporter)
    (m : gmap OptionsExportType IExporter) : gmap OptionsExportType IExporter :=
  match m !! k with
  | Some _ => m
  | None => <[k := v]> m
  end.

(** [std::map::at] throws [std::out_of_range] on a missing key. *)
Definition map_at (m : gmap OptionsExportType IExporter) (k : OptionsExportType)
    : M IExporter :=
  match m !! k with
  | Some v => ret v
  | None => throw (StdException "invalid map<K, T> key")
  end.

(** The body of [for (const auto& singleExport : exports)]. *)
Definition Export_one (exporters : gmap OptionsExportType IExporter)
    (defaultPathPrefix : string) (coverage : CoverageData)
    (singleExport : OptionsExport) : M unit :=
  exporter <- map_at exporters (GetType singleExport) ;;
  let optionalOutputPath := GetOutputPath singleExport in
  output <- match optionalOutputPath with
            | Some p => ret p
            | None =>
                call (exporter_GetDefaultPath exporter defaultPathPrefix)
                     (EvGetDefaultPath (GetType singleExport) defaultPathPrefix)
            end ;;
  call (exporter_Export exporter coverage output)
       (EvExport (GetType singleExport) coverage output).

Fixpoint Export_loop (exporters : gmap OptionsExportType IExporter)
    (defaultPathPrefix : string) (coverage : CoverageData)
    (exports : list OptionsExport) : M unit :=
  match exports with
  | [] => ret tt
  | singleExport :: rest =>
      Export_one exporters defaultPathPrefix coverage singleExport ;;
      Export_loop exporters defaultPathPrefix coverage rest
  end.

Definition Export (options : Options) (coverage : CoverageData) : M unit :=
  let exports := GetExports options in
  let exporters : gmap OptionsExportType IExporter := ∅ in
  templateFolder <- call GetTemplateFolder EvGetTemplateFolder ;;
  html <- call (HtmlExporter templateFolder) (EvNewExporter Html) ;;
  let exporters := emplace Html html exporters in
  cobertura <- call CoberturaExporter (EvNewExporter Cobertura) ;;
  let exporters := emplace Cobertura cobertura exporters in
  binary <- call BinaryExporter (EvNewExporter Binary) ;;
  let exporters := emplace Binary binary exporters in
  let defaultPathPrefix := GetDefaultPathPrefix options in
  Export_loop exporters defaultPathPrefix coverage exports.

(** *** LoadInputCoverageDatas *)
Fixpoint LoadInputCoverageDatas_loop (coverageDatas : list CoverageData)
    (paths : list path) : M (list CoverageData) :=
  match paths with
  | [] => ret coverageDatas
  | path :: rest =>
      let errorMsg := String.append "Cannot extract coverage data from " (path_string path) in
      LOG_INFO [Text "Load coverage file: "; Text (path_wstring path)] ;;
      coverageData <- call (Deserialize path errorMsg) (EvDeserialize path errorMsg) ;;
      LoadInputCoverageDatas_loop (coverageDatas ++ [coverageData]) rest
  end.

Definition LoadInputCoverageDatas (options : Options) : M (list CoverageData) :=
  LoadInputCoverageDatas_loop [] (GetInputCoveragePaths options).

(** *** InitLogger *)
Definition InitLogger (options : Options) : M unit :=
  let logLevel :=
    match GetLogLevel options with
    | Verbose => sev_debug
    | Quiet => sev_error
    | _ => sev_info
    end in
  call (InitConsoleAndFileLog "LastCoverageResults.log")
       (EvInitConsoleAndFileLog "LastCoverageResults.log") ;;
  call (SetLoggerMinSeverity logLevel) (EvSetLoggerMinSeverity logLevel).

(** *** Run (const cov::Options&) *)

Definition maxUnmatchPathsForWarning (options : Options) : Z :=
  if decide (GetLogLevel options = Verbose) then size_t_max else 30.

Definition runCoverageSettings (options : Options) (startInfo : StartInfo)
    : RunCoverageSettings :=
  let coverageFilterSettings :=
    mkCoverageFilterSettings (GetModulePatterns options) (GetSourcePatterns options) in
  {| rcs_startInfo := startInfo;
     rcs_coverageFilterSettings := coverageFilterSettings;
     rcs_unifiedDiffSettings := GetUnifiedDiffSettingsCollection options;
     rcs_excludedLineRegexes := GetExcludedLineRegexes options;
     rcs_substitutePdbSourcePaths := GetSubstitutePdbSourcePaths options;
     rcs_coverChildren := IsCoverChildrenModeEnabled options;
     rcs_continueAfterCppException := IsContinueAfterCppExceptionModeEnabled options;
     rcs_maxUnmatchPathsForWarning := maxUnmatchPathsForWarning options;
     rcs_optimizedBuildSupport := IsOptimizedBuildSupportEnabled options |}.

Definition Run (options : Options) : M Z :=
  InitLogger options ;;
  coveraDatas <- LoadInputCoverageDatas options ;;
  let startInfo := GetStartInfo options in
  LOG_INFO [Text "Start Program:"; Endl; Streamed options] ;;
  let exitCode := 0 in
  launched <-
    match startInfo with
    | Some startInfo =>
        coverageData <- call (RunCoverage (runCoverageSettings options startInfo))
                             (EvRunCoverage (runCoverageSettings options startInfo)) ;;
        let exitCode := GetExitCode coverageData in
        ret (exitCode, coveraDatas ++ [coverageData])
    | None => ret (exitCode, coveraDatas)
    end ;;
  let exitCode := launched.1 in
  let coveraDatas := launched.2 in
  coverageData <- call (Merge coveraDatas) (EvMerge coveraDatas) ;;
  coverageData <-
    (if IsAggregateByFileModeEnabled options
     then call (MergeFileCoverage coverageData) (EvMergeFileCoverage coverageData)
     else ret coverageData) ;;
  Export options coverageData ;;
  (if decide (exitCode = 0) then ret tt
   else LOG_ERROR [Text "Your program stop with error code: "; Num exitCode]) ;;
  ret exitCode.

(** *** OpenCppCoverage::Run (argc, argv, emptyOptionsExplanation) *)
Definition OpenCppCoverage_Run (argv : list string) : M Z :=
  options <- call (Parse argv) (EvParse argv) ;;
  let status := FailureExitCode in
  match options with
  | Some options =>
      status <- try_catch (Run options)
                  (fun e =>
                     match e with
                     | StdException what => LOG_ERROR [Text "Error: "; Text what]
                     | UnknownException => LOG_ERROR [Text "Unkown Error"]
                     end ;;
                     ret status) ;;
      call DisplayWarnings EvDisplayWarnings ;;
      (if IsPlugingModeEnabled options
       then emit (EvCout "Press any key to continue... ") ;; emit EvCinGet
       else ret tt) ;;
      ret status
  | None => ret status
  end.

End Orchestration.

(** ** The coverage model and its merger, from the specification *)

Module CoverageModel.

(** Modelled from the spec: the Coverage Data Model of section 3, as far as
    hit data goes ([CppCoverage/CoverageData.hpp] and its parts are not
    part of the sources at hand).  A module, by its path, owns files; a
    file, by its path after substitution, owns lines keyed by their
    number; a line that is present has an instrumentation point and
    carries its hit flag. *)
Abbreviation Lines := (gmap N bool).
Abbreviation Files := (gmap string (gmap N bool)).
Abbreviation Modules := (gmap string (gmap string (gmap N bool))).

(** The hit status of line [n] of file [f] among [files]: [None] when
    there is no such line. *)
Definition linesAt (files : Files) (f : string) (n : N) : option bool :=
  match files !! f with
  | Some lines => lines !! n
  | None => None
  end.

(** The hit status of line [n] of file [f] in module [m]. *)
Definition lineHit (d : Modules) (m f : string) (n : N) : option bool :=
  match d !! m with
  | Some files => linesAt files f n
  | None => None
  end.


(** Modelled from the spec: [CoverageDataMerger::Merge]
    ([CppCoverage/CoverageDataMerger.cpp] is not part of the sources at
    hand), following section 4.6: per (module, file, line) identity, a
    line is hit if it is hit in any input. *)
Definition mergeLines (a b : Lines) : Lines :=
  union_with (fun x y => Some (x || y)) a b.

Definition mergeFiles (a b : Files) : Files :=
  union_with (fun x y => Some (mergeLines x y)) a b.

Definition mergeModules (a b : Modules) : Modules :=
  union_with (fun x y => Some (mergeFiles x y)) a b.

Definition Merge (coverageDatas : list Modules) : Modules :=
  foldr mergeModules ∅ coverageDatas.


(** Modelled from the spec: [CoverageDataMerger::MergeFileCoverage]
    ([CppCoverage/CoverageDataMerger.cpp] is not part of the sources at
    hand), following section 4.6: a view transformation that changes the
    grouping of the hit data, not the hit data.  The view is keyed by
    canonical file; the entries of the modules that reference the same
    file are collected under the one entry of that file, each with the
    lines its module recorded. *)
Abbreviation FileView := (gmap string (gmap string (gmap N bool))).

(** Files the lines that module [m] recorded for file [f] under the
    entry of [f]. *)
Definition group (m f : string) (lines : Lines) (view : FileView) : FileView :=
  <[f := <[m := lines]> (default ∅ (view !! f))]> view.

Definition groupModule (m : string) (files : Files) (view : FileView) : FileView :=
  map_fold (group m) view files.

Definition MergeFileCoverage (d : Modules) : FileView :=
  map_fold groupModule ∅ d.

(** What the view holds under file [f] for module [m], and the hit status
    of line [n] there. *)
Definition viewLines (v : FileView) (f m : string) : option Lines :=
  match v !! f with
  | Some entries => entries !! m
  | None => None
  end.

Definition viewLineHit (v : FileView) (f m : string) (n : N) : option bool :=
  match viewLines v f m with
  | Some lines => lines !! n
  | None => None
  end.

(** The aggregated status of line [n] of the logical file [f], as an
    exporter reads it off the view: over the entries collected under
    [f], by the rule of the merge. *)
Definition aggregate (entries : gmap string Lines) : Lines :=
  map_fold (fun _ lines acc => mergeLines lines acc) ∅ entries.

Definition viewHit (v : FileView) (f : string) (n : N) : option bool :=
  match v !! f with
  | Some entries => aggregate entries !! n
  | None => None
  end.

(** Helpers: the rule of the merge on optional values. *)

Definition orHit (x y : option bool) : option bool :=
  union_with (fun a b => Some (a || b)) x y.

Definition orLines (x y : option Lines) : option Lines :=
  union_with (fun a b => Some (mergeLines a b)) x y.

Definition orFiles (x y : option Files) : option Files :=
  union_with (fun a b => Some (mergeFiles a b)) x y.

End CoverageModel.

(** ** The vocabulary of traces

    What a trace shows, and relations that list every way the functions of
    the orchestration can go.  The relations are proved sound below. *)

Section Traces.
Context `{Declarations}.

(** The exception an outcome carries, if any. *)
Definition exception_of {A} (r : Outcome A) : option exn :=
  match r with Returned _ => None | Thrown e => Some e end.

(** The exception a recorded event ended with; records of the log and
    console output do not throw. *)
Definition thrown (ev : Event) : option exn :=
  match ev with
  | EvInitConsoleAndFileLog _ r => exception_of r
  | EvSetLoggerMinSeverity _ r => exception_of r
  | EvLog _ _ => None
  | EvDeserialize _ _ r => exception_of r
  | EvRunCoverage _ r => exception_of r
  | EvMerge _ r => exception_of r
  | EvMergeFileCoverage _ r => exception_of r
  | EvGetTemplateFolder r => exception_of r
  | EvNewExporter _ r => exception_of r
  | EvGetDefaultPath _ _ r => exception_of r
  | EvExport _ _ _ r => exception_of r
  | EvParse _ r => exception_of r
  | EvDisplayWarnings r => exception_of r
  | EvCout _ => None
  | EvCinGet => None
  end.

(** No collaborator threw during the run. *)
Definition clean (t : list Event) : Prop := Forall (fun ev => thrown ev = None) t.

(** The events [Export] produces. *)
Definition is_export_event (ev : Event) : bool :=
  match ev with
  | EvGetTemplateFolder _ | EvNewExporter _ _ | EvGetDefaultPath _ _ _ | EvExport _ _ _ _ => true
  | _ => false
  end.

(** The models the deserializer returned, in order. *)
Definition loaded (t : list Event) : list CoverageData :=
  omap (fun ev => match ev with EvDeserialize _ _ (Returned d) => Some d | _ => None end) t.

(** [r] after the events [t]. *)
Definition prepend {A} (t : list Event) (r : Result A) : Result A :=
  mkResult (t ++ trace r) (world r) (outcome r).

(** The message [LoadInputCoverageDatas] hands to the deserializer. *)
Definition errorMsg_of (p : path) : string :=
  String.append "Cannot extract coverage data from " (path_string p).

(** The record it logs before reading [p]. *)
Definition load_log (p : path) : Event :=
  EvLog sev_info [Text "Load coverage file: "; Text (path_wstring p)].

(** The trace of loading [paths] when the deserializer returned [ds]. *)
Definition load_events (paths : list path) (ds : list CoverageData) : list Event :=
  concat (zip_with (fun p d => [load_log p; EvDeserialize p (errorMsg_of p) (Returned d)])
                   paths ds).

(** How loading the snapshots at [paths] can go: every one is read, or
    the first that fails ends the loop. *)
Definition LoadTrace (paths : list path) (t : list Event)
    (o : Outcome (list CoverageData)) : Prop :=
  match o with
  | Returned ds => length ds = length paths /\ t = load_events paths ds
  | Thrown e =>
      exists done p rest ds,
        paths = done ++ p :: rest /\ length ds = length done /\
        t = load_events done ds ++ [load_log p; EvDeserialize p (errorMsg_of p) (Thrown e)]
  end.

(** The exporters registered by the three [emplace] calls. *)
Definition registry (html cobertura binary : IExporter)
    : gmap OptionsExportType IExporter :=
  emplace Binary binary (emplace Cobertura cobertura (emplace Html html ∅)).

(** The exporter found under each key. *)
Definition registered (html cobertura binary : IExporter) (t : OptionsExportType)
    : IExporter :=
  match t with Html => html | Cobertura => cobertura | Binary => binary end.

(** One round of the loop with exporter [ex]: the explicit path, or the
    exporter's default path for the prefix, then the export itself. *)
Inductive ExportOne (ex : IExporter) (prefix : string) (c : CoverageData)
    (x : OptionsExport) : list Event -> Outcome unit -> Prop :=
| EO_explicit p r w w' :
    GetOutputPath x = Some p ->
    exporter_Export ex c p w = (w', r) ->
    ExportOne ex prefix c x [EvExport (GetType x) c p r] r
| EO_default_throws e w w' :
    GetOutputPath x = None ->
    exporter_GetDefaultPath ex prefix w = (w', Thrown e) ->
    ExportOne ex prefix c x [EvGetDefaultPath (GetType x) prefix (Thrown e)] (Thrown e)
| EO_default out r w1 w2 w3 :
    GetOutputPath x = None ->
    exporter_GetDefaultPath ex prefix w1 = (w2, Returned out) ->
    exporter_Export ex c out w2 = (w3, r) ->
    ExportOne ex prefix c x
      [EvGetDefaultPath (GetType x) prefix (Returned out); EvExport (GetType x) c out r] r.

(** The loop over the exports: it stops at the first round that throws. *)
Inductive ExportLoop (exporters : gmap OptionsExportType IExporter) (prefix : string)
    (c : CoverageData) : list OptionsExport -> list Event -> Outcome unit -> Prop :=
| EL_done : ExportLoop exporters prefix c [] [] (Returned tt)
| EL_throws x rest ex t e :
    exporters !! GetType x = Some ex ->
    ExportOne ex prefix c x t (Thrown e) ->
    ExportLoop exporters prefix c (x :: rest) t (Thrown e)
| EL_next x rest ex t t' o :
    exporters !! GetType x = Some ex ->
    ExportOne ex prefix c x t (Returned tt) ->
    ExportLoop exporters prefix c rest t' o ->
    ExportLoop exporters prefix c (x :: rest) (t ++ t') o.

(** How [Export] can go: a constructor fails, or the loop runs over the
    configured exports with the three exporters registered. *)
Inductive ExportTrace (options : Options) (c : CoverageData)
    : list Event -> Outcome unit -> Prop :=
| ET_template e :
    ExportTrace options c [EvGetTemplateFolder (Thrown e)] (Thrown e)
| ET_html tf e :
    ExportTrace options c
      [EvGetTemplateFolder (Returned tf); EvNewExporter Html (Thrown e)] (Thrown e)
| ET_cobertura tf html e :
    ExportTrace options c
      [EvGetTemplateFolder (Returned tf); EvNewExporter Html (Returned html);
       EvNewExporter Cobertura (Thrown e)] (Thrown e)
| ET_binary tf html cobertura e :
    ExportTrace options c
      [EvGetTemplateFolder (Returned tf); EvNewExporter Html (Returned html);
       EvNewExporter Cobertura (Returned cobertura);
       EvNewExporter Binary (Thrown e)] (Thrown e)
| ET_loop tf html cobertura binary t o :
    ExportLoop (registry html cobertura binary) (GetDefaultPathPrefix options) c
               (GetExports options) t o ->
    ExportTrace options c
      ([EvGetTemplateFolder (Returned tf); EvNewExporter Html (Returned html);
        EvNewExporter Cobertura (Returned cobertura);
        EvNewExporter Binary (Returned binary)] ++ t) o.

(** The minimal severity [InitLogger] sets. *)
Definition min_severity (options : Options) : Severity :=
  match GetLogLevel options with
  | Verbose => sev_debug
  | Quiet => sev_error
  | Normal => sev_info
  end.

(** The trace of [InitLogger] when it returns. *)
Definition init_events (options : Options) : list Event :=
  [EvInitConsoleAndFileLog "LastCoverageResults.log" (Returned tt);
   EvSetLoggerMinSeverity (min_severity options) (Returned tt)].

(** The record [Run] logs once the snapshots are loaded. *)
Definition start_log (options : Options) : Event :=
  EvLog sev_info [Text "Start Program:"; Endl; Streamed options].

(** What the [if (startInfo)] block leaves behind: with [l] the model the
    runner returned, if a target is configured. *)
Definition launch_ok (options : Options) (l : option CoverageData) : Prop :=
  match GetStartInfo options, l with
  | Some _, Some _ | None, None => True
  | _, _ => False
  end.

(** The call of the runner, the model it adds to the merge and the exit
    code it gives. *)
Definition launch_events (options : Options) (l : option CoverageData) : list Event :=
  match GetStartInfo options, l with
  | Some startInfo, Some cd =>
      [EvRunCoverage (runCoverageSettings options startInfo) (Returned cd)]
  | _, _ => []
  end.

Definition launch_exit (l : option CoverageData) : Z := from_option GetExitCode 0 l.

(** The optional aggregation step, from the merged model [m] to the
    model [m'] that is exported. *)
Definition aggregated (options : Options) (m m' : CoverageData) (t : list Event) : Prop :=
  if IsAggregateByFileModeEnabled options
  then t = [EvMergeFileCoverage m (Returned m')]
  else t = [] /\ m' = m.

(** The record of a non-zero exit code. *)
Definition exit_log (exitCode : Z) : list Event :=
  if decide (exitCode = 0) then []
  else [EvLog sev_error [Text "Your program stop with error code: "; Num exitCode]].

(** Every way the second half of [Run] can go, from the call of the
    merger on [datas] to the exit code [exitCode], by the step that ends
    it. *)
Inductive FinishTrace (options : Options) (datas : list CoverageData) (exitCode : Z)
    : list Event -> Outcome Z -> Prop :=
| FT_Merge e :
    FinishTrace options datas exitCode [EvMerge datas (Thrown e)] (Thrown e)
| FT_MergeFileCoverage m e :
    IsAggregateByFileModeEnabled options = true ->
    FinishTrace options datas exitCode
      [EvMerge datas (Returned m); EvMergeFileCoverage m (Thrown e)] (Thrown e)
| FT_Export m ta m' te e :
    aggregated options m m' ta ->
    ExportTrace options m' te (Thrown e) ->
    FinishTrace options datas exitCode
      (EvMerge datas (Returned m) :: ta ++ te) (Thrown e)
| FT_Returned m ta m' te :
    aggregated options m m' ta ->
    ExportTrace options m' te (Returned tt) ->
    FinishTrace options datas exitCode
      (EvMerge datas (Returned m) :: ta ++ te ++ exit_log exitCode) (Returned exitCode).

(** Every way a call of [Run] can go. *)
Inductive RunTrace (options : Options) : list Event -> Outcome Z -> Prop :=
| RT_InitConsoleAndFileLog e :
    RunTrace options
      [EvInitConsoleAndFileLog "LastCoverageResults.log" (Thrown e)] (Thrown e)
| RT_SetLoggerMinSeverity e :
    RunTrace options
      [EvInitConsoleAndFileLog "LastCoverageResults.log" (Returned tt);
       EvSetLoggerMinSeverity (min_severity options) (Thrown e)] (Thrown e)
| RT_Load tl e :
    LoadTrace (GetInputCoveragePaths options) tl (Thrown e) ->
    RunTrace options (init_events options ++ tl) (Thrown e)
| RT_RunCoverage tl ds startInfo e :
    LoadTrace (GetInputCoveragePaths options) tl (Returned ds) ->
    GetStartInfo options = Some startInfo ->
    RunTrace options
      (init_events options ++ tl ++
       [start_log options;
        EvRunCoverage (runCoverageSettings options startInfo) (Thrown e)]) (Thrown e)
| RT_Finish tl ds l tf o :
    LoadTrace (GetInputCoveragePaths options) tl (Returned ds) ->
    launch_ok options l ->
    FinishTrace options (ds ++ option_list l) (launch_exit l) tf o ->
    RunTrace options
      (init_events options ++ tl ++ start_log options :: launch_events options l ++ tf) o.

(** What an [EvExport] event of the loop says about the export that
    produced it: the model, the exporter registered for its type, and the
    output path. *)
Definition export_path_ok (ex : IExporter) (prefix : string) (x : OptionsExport)
    (t : list Event) (out : path) : Prop :=
  match GetOutputPath x with
  | Some p => out = p
  | None => EvGetDefaultPath (GetType x) prefix (Returned out) ∈ t /\
            exists w1 w2, exporter_GetDefaultPath ex prefix w1 = (w2, Returned out)
  end.

(** The exporter an [EvNewExporter] event of the trace registered for [ty]. *)
Definition dispatched (t : list Event) (ty : OptionsExportType) (ex : IExporter) : Prop :=
  EvNewExporter ty (Returned ex) ∈ t.

(** The text the [catch] clauses of [OpenCppCoverage::Run] log. *)
Definition catch_message (e : exn) : list LogPiece :=
  match e with
  | StdException what => [Text "Error: "; Text what]
  | UnknownException => [Text "Unkown Error"]
  end.

(** The pause of the plugin mode. *)
Definition pause_events (options : Options) : list Event :=
  if IsPlugingModeEnabled options
  then [EvCout "Press any key to continue... "; EvCinGet]
  else [].

End Traces.

(** ** More of the vocabulary: projections of a trace and the ways of
    [OpenCppCoverage::Run] *)

Section MoreTraces.
Context `{Declarations}.

(** The calls of the runner, of the merger and of [DisplayWarnings], the
    snapshots handed to the deserializer, the kinds exported and the texts
    logged at error level, each in the order of the trace. *)
Definition launch_of (ev : Event) : option (RunCoverageSettings * Outcome CoverageData) :=
  match ev with EvRunCoverage s r => Some (s, r) | _ => None end.

Definition merge_of (ev : Event) : option (list CoverageData * Outcome CoverageData) :=
  match ev with EvMerge d r => Some (d, r) | _ => None end.

Definition display_of (ev : Event) : option (Outcome unit) :=
  match ev with EvDisplayWarnings r => Some r | _ => None end.

Definition deserialize_of (ev : Event) : option (path * string) :=
  match ev with EvDeserialize p errorMsg _ => Some (p, errorMsg) | _ => None end.

Definition export_of (ev : Event) : option OptionsExportType :=
  match ev with EvExport ty _ _ _ => Some ty | _ => None end.

Definition error_of (ev : Event) : option (list LogPiece) :=
  match ev with EvLog sev_error msg => Some msg | _ => None end.

(** What [LoadInputCoverageDatas] hands to the deserializer for [paths]:
    each path with its error message. *)
Definition expected_loads (paths : list path) : list (path * string) :=
  map (fun p => (p, String.append "Cannot extract coverage data from " (path_string p))) paths.

(** The events the inner [Run] can produce. *)
Definition is_run_event (ev : Event) : bool :=
  match ev with
  | EvParse _ _ | EvDisplayWarnings _ | EvCout _ | EvCinGet => false
  | _ => true
  end.

(** What [OpenCppCoverage::Run] adds around a call of [Run] that ended
    with [o], [DisplayWarnings] ending with [rd]. *)
Definition caught (o : Outcome Z) : list Event :=
  match o with
  | Returned _ => []
  | Thrown e => [EvLog sev_error (catch_message e)]
  end.

Definition paused (options : Options) (rd : Outcome unit) : list Event :=
  match rd with
  | Returned _ => pause_events options
  | Thrown _ => []
  end.

Definition status_of (o : Outcome Z) (rd : Outcome unit) : Outcome Z :=
  match rd with
  | Thrown e => Thrown e
  | Returned _ =>
      Returned match o with Returned exitCode => exitCode | Thrown _ => FailureExitCode end
  end.

(** Every way a call of [OpenCppCoverage::Run] can go. *)
Inductive MainTrace (argv : list string) : list Event -> Outcome Z -> Prop :=
| MT_ParseThrows e :
    MainTrace argv [EvParse argv (Thrown e)] (Thrown e)
| MT_NoOptions :
    MainTrace argv [EvParse argv (Returned None)] (Returned FailureExitCode)
| MT_Run options t o rd :
    RunTrace options t o ->
    MainTrace argv
      (EvParse argv (Returned (Some options)) :: t ++ caught o ++
       EvDisplayWarnings rd :: paused options rd)
      (status_of o rd).

End MoreTraces.


(** ** A test bench

    Concrete declarations and collaborators on which the orchestration runs:
    the world counts the calls made so far, a target is a path with the exit
    code it will end with, and a coverage model is a list of labels with an
    exit code.  [filename] and [replace_extension] follow [fs::path] on plain
    Windows and POSIX names. *)
Module Bench.

Definition is_separator (c : ascii) : bool :=
  bool_decide (c = "/"%char) || bool_decide (c = "\"%char).

Fixpoint has_char (p : ascii -> bool) (s : string) : bool :=
  match s with
  | EmptyString => false
  | String c r => p c || has_char p r
  end.

Fixpoint bench_filename (s : string) : string :=
  match s with
  | EmptyString => EmptyString
  | String c r =>
      if has_char is_separator r then bench_filename r
      else if is_separator c then r else s
  end.

Fixpoint strip_extension (s : string) : string :=
  match s with
  | EmptyString => EmptyString
  | String c r =>
      if has_char (fun d => bool_decide (d = "."%char)) r then String c (strip_extension r)
      else if bool_decide (c = "."%char) then EmptyString else s
  end.

Definition bench_replace_extension (p : path) (ext : string) : path :=
  String.append (strip_extension p) ext.

Record Target := mkTarget { target_path : path; target_exit : Z }.
Record Snapshot := mkSnapshot { snap_lines : list string; snap_exit : Z }.

#[export] Instance bench_declarations : Declarations := {|
  World := nat;
  CoverageData := Snapshot;
  GetExitCode := snap_exit;
  StartInfo := Target;
  GetPath := target_path;
  Patterns := list string;
  UnifiedDiffSettingsCollection := unit;
  ExcludedLineRegexes := unit;
  SubstitutePdbSourcePaths := unit;
  filename := bench_filename;
  replace_extension := bench_replace_extension;
  size_t_bits := 64;
  FailureExitCode := 57005
|}.

Definition returns {A} (a : A) : Ext A := fun w => (S w, Returned a).
Definition throws {A} (what : string) : Ext A := fun w => (S w, Thrown (StdException what)).

(** An exporter that writes nowhere when the output path is empty. *)
Definition bench_exporter (default : string -> path) : IExporter := {|
  exporter_GetDefaultPath := fun prefix => returns (default prefix);
  exporter_Export := fun _ output =>
    if bool_decide (output = "") then throws "Cannot write" else returns tt
|}.

Definition options_of (target : option Target) (inputs : list path)
    (exports : list OptionsExport) (level : LogLevel) (aggregate pluging : bool)
    : Options := {|
  GetStartInfo := target;
  GetExports := exports;
  GetInputCoveragePaths := inputs;
  GetLogLevel := level;
  GetModulePatterns := ["*"];
  GetSourcePatterns := ["*"];
  GetUnifiedDiffSettingsCollection := tt;
  GetExcludedLineRegexes := tt;
  GetSubstitutePdbSourcePaths := tt;
  IsCoverChildrenModeEnabled := false;
  IsContinueAfterCppExceptionModeEnabled := false;
  IsOptimizedBuildSupportEnabled := false;
  IsAggregateByFileModeEnabled := aggregate;
  IsPlugingModeEnabled := pluging
|}.

Definition app_exe (code : Z) : Target := mkTarget "C:\Dev\MyApp.exe" code.

(** The command lines the bench parser understands. *)
Definition bench_parse (argv : list string) : Ext (option Options) :=
  match argv with
  | ["--export_type"; "binary"; "--"; "MyApp.exe"; "3"] =>
      returns (Some (options_of (Some (app_exe 3)) [] [mkOptionsExport Binary None]
                                Normal false false))
  | ["--export_type"; "binary:"; "--"; "MyApp.exe"; "0"] =>
      returns (Some (options_of (Some (app_exe 0)) [] [mkOptionsExport Binary (Some "")]
                                Normal false true))
  | ["--input_coverage"; "corrupt.cov"] =>
      returns (Some (options_of None ["corrupt.cov"] [] Normal false false))
  | _ => returns None
  end.

#[export] Instance bench_collaborators : Collaborators := {|
  InitConsoleAndFileLog := fun _ => returns tt;
  SetLoggerMinSeverity := fun _ => returns tt;
  Deserialize := fun p errorMsg =>
    if bool_decide (p = "corrupt.cov") then throws errorMsg
    else returns (mkSnapshot [p] 0);
  RunCoverage := fun s =>
    if bool_decide (target_path (rcs_startInfo s) = "missing.exe")
    then throws "Cannot start process"
    else returns (mkSnapshot [target_path (rcs_startInfo s)] (target_exit (rcs_startInfo s)));
  Merge := fun datas => returns (mkSnapshot (concat (map snap_lines datas)) 0);
  MergeFileCoverage := fun c => returns c;
  GetTemplateFolder := returns "Template";
  HtmlExporter := fun _ => returns (bench_exporter (fun _ => "CoverageReport"));
  CoberturaExporter := returns (bench_exporter (fun prefix => String.append prefix "Coverage.xml"));
  BinaryExporter := returns (bench_exporter (fun prefix => String.append prefix ".cov"));
  Parse := bench_parse;
  DisplayWarnings := returns tt
|}.

(** Runs of the bench. *)

(** A target that ends with exit code 3, one input snapshot, a binary
    export to the default path. *)
Definition exits_with_3 : Options :=
  options_of (Some (app_exe 3)) ["a.cov"] [mkOptionsExport Binary None] Normal false false.

(** The model the bench runner returns for it. *)
Definition model_of_3 : Snapshot := mkSnapshot ["C:\Dev\MyApp.exe"] 3.

(** No target, two input snapshots, aggregation, two exports. *)
Definition merge_only : Options :=
  options_of None ["a.cov"; "b.cov"]
    [mkOptionsExport Binary (Some "merged.cov"); mkOptionsExport Cobertura None]
    Quiet true false.

(** A target whose export cannot be written, in plugin mode. *)
Definition unwritable : Options :=
  options_of (Some (app_exe 0)) [] [mkOptionsExport Binary (Some "")] Normal false true.

Definition unwritable_argv : list string :=
  ["--export_type"; "binary:"; "--"; "MyApp.exe"; "0"].

(** Two run results over the same source file, seen from two modules. *)
Definition run_a : CoverageModel.Modules :=
  {[ "a.dll" := {[ "f.cpp" := {[ 10%N := true; 11%N := false ]} ]} ]}.
Definition run_b : CoverageModel.Modules :=
  {[ "b.dll" := {[ "f.cpp" := {[ 10%N := false; 12%N := false ]};
                   "g.cpp" := {[ 1%N := true ]} ]} ]}.

(** Three input snapshots of which the second cannot be read. *)
Definition second_unreadable : Options :=
  options_of (Some (app_exe 0)) ["a.cov"; "corrupt.cov"; "b.cov"]
    [mkOptionsExport Binary None] Normal false false.

Definition exits_with_3_argv : list string :=
  ["--export_type"; "binary"; "--"; "MyApp.exe"; "3"].

(** The bench with a warning manager that cannot display. *)
Definition broken_display : Collaborators := {|
  InitConsoleAndFileLog := fun _ => returns tt;
  SetLoggerMinSeverity := fun _ => returns tt;
  Deserialize := fun p errorMsg => returns (mkSnapshot [p] 0);
  RunCoverage := fun s =>
    returns (mkSnapshot [target_path (rcs_startInfo s)] (target_exit (rcs_startInfo s)));
  Merge := fun datas => returns (mkSnapshot (concat (map snap_lines datas)) 0);
  MergeFileCoverage := fun c => returns c;
  GetTemplateFolder := returns "Template";
  HtmlExporter := fun _ => returns (bench_exporter (fun _ => "CoverageReport"));
  CoberturaExporter := returns (bench_exporter (fun prefix => String.append prefix "Coverage.xml"));
  BinaryExporter := returns (bench_exporter (fun prefix => String.append prefix ".cov"));
  Parse := bench_parse;
  DisplayWarnings := throws "Cannot display"
|}.

End Bench.


(** * Facts about the modelled merger *)

Module MergerFacts.
Import CoverageModel.

Lemma orHit_comm x y : orHit x y = orHit y x.
Proof. destruct x as [[]|], y as [[]|]; reflexivity. Qed.

Lemma orHit_assoc x y z : orHit x (orHit y z) = orHit (orHit x y) z.
Proof. destruct x as [[]|], y as [[]|], z as [[]|]; reflexivity. Qed.

Lemma orHit_idemp x : orHit x x = x.
Proof. destruct x as [[]|]; reflexivity. Qed.

Lemma lookup_mergeLines (a b : Lines) n :
  mergeLines a b !! n = orHit (a !! n) (b !! n).
Proof. unfold mergeLines. rewrite lookup_union_with. reflexivity. Qed.

Lemma mergeLines_comm (a b : Lines) : mergeLines a b = mergeLines b a.
Proof. apply map_eq; intros n. rewrite !lookup_mergeLines. apply orHit_comm. Qed.

Lemma mergeLines_assoc (a b c : Lines) :
  mergeLines a (mergeLines b c) = mergeLines (mergeLines a b) c.
Proof. apply map_eq; intros n. rewrite !lookup_mergeLines. apply orHit_assoc. Qed.

Lemma mergeLines_idemp (a : Lines) : mergeLines a a = a.
Proof. apply map_eq; intros n. rewrite !lookup_mergeLines. apply orHit_idemp. Qed.

Lemma lookup_mergeFiles (a b : Files) f :
  mergeFiles a b !! f = orLines (a !! f) (b !! f).
Proof. unfold mergeFiles. rewrite lookup_union_with. reflexivity. Qed.

Lemma orLines_comm x y : orLines x y = orLines y x.
Proof. destruct x, y; cbn; try reflexivity. by rewrite mergeLines_comm. Qed.

Lemma orLines_assoc x y z : orLines x (orLines y z) = orLines (orLines x y) z.
Proof. destruct x, y, z; cbn; try reflexivity. by rewrite mergeLines_assoc. Qed.

Lemma orLines_idemp x : orLines x x = x.
Proof. destruct x; cbn; try reflexivity. by rewrite mergeLines_idemp. Qed.

Lemma mergeFiles_comm (a b : Files) : mergeFiles a b = mergeFiles b a.
Proof. apply map_eq; intros n. rewrite !lookup_mergeFiles. apply orLines_comm. Qed.

Lemma mergeFiles_assoc (a b c : Files) :
  mergeFiles a (mergeFiles b c) = mergeFiles (mergeFiles a b) c.
Proof. apply map_eq; intros n. rewrite !lookup_mergeFiles. apply orLines_assoc. Qed.

Lemma mergeFiles_idemp (a : Files) : mergeFiles a a = a.
Proof. apply map_eq; intros n. rewrite !lookup_mergeFiles. apply orLines_idemp. Qed.

Lemma lookup_mergeModules (a b : Modules) m :
  mergeModules a b !! m = orFiles (a !! m) (b !! m).
Proof. unfold mergeModules. rewrite lookup_union_with. reflexivity. Qed.

Lemma orFiles_comm x y : orFiles x y = orFiles y x.
Proof. destruct x, y; cbn; try reflexivity. by rewrite mergeFiles_comm. Qed.

Lemma orFiles_assoc x y z : orFiles x (orFiles y z) = orFiles (orFiles x y) z.
Proof. destruct x, y, z; cbn; try reflexivity. by rewrite mergeFiles_assoc. Qed.

Lemma orFiles_idemp x : orFiles x x = x.
Proof. destruct x; cbn; try reflexivity. by rewrite mergeFiles_idemp. Qed.

Lemma mergeModules_comm (a b : Modules) : mergeModules a b = mergeModules b a.
Proof. apply map_eq; intros n. rewrite !lookup_mergeModules. apply orFiles_comm. Qed.

Lemma mergeModules_assoc (a b c : Modules) :
  mergeModules a (mergeModules b c) = mergeModules (mergeModules a b) c.
Proof. apply map_eq; intros n. rewrite !lookup_mergeModules. apply orFiles_assoc. Qed.

Lemma mergeModules_idemp (a : Modules) : mergeModules a a = a.
Proof. apply map_eq; intros n. rewrite !lookup_mergeModules. apply orFiles_idemp. Qed.

Lemma mergeModules_empty_r (a : Modules) : mergeModules a ∅ = a.
Proof.
  apply map_eq; intros n. rewrite lookup_mergeModules, lookup_empty.
  destruct (a !! n); reflexivity.
Qed.

Lemma orHit_None_r x : orHit x None = x.
Proof. destruct x; reflexivity. Qed.

Lemma orHit_None_l x : orHit None x = x.
Proof. destruct x; reflexivity. Qed.

Lemma linesAt_mergeFiles (a b : Files) f n :
  linesAt (mergeFiles a b) f n = orHit (linesAt a f n) (linesAt b f n).
Proof.
  unfold linesAt. rewrite lookup_mergeFiles.
  destruct (a !! f) as [la|], (b !! f) as [lb|]; cbn;
    rewrite ?orHit_None_r, ?orHit_None_l; try reflexivity.
  apply lookup_mergeLines.
Qed.

(** The rule of the merge, line by line. *)
Lemma lineHit_mergeModules (a b : Modules) m f n :
  lineHit (mergeModules a b) m f n = orHit (lineHit a m f n) (lineHit b m f n).
Proof.
  unfold lineHit. rewrite lookup_mergeModules.
  destruct (a !! m) as [fa|], (b !! m) as [fb|]; cbn;
    rewrite ?orHit_None_r, ?orHit_None_l; try reflexivity.
  apply linesAt_mergeFiles.
Qed.

Lemma lineHit_empty m f n : lineHit ∅ m f n = None.
Proof. unfold lineHit. rewrite lookup_empty. reflexivity. Qed.

Lemma orHit_true x y : orHit x y = Some true <-> x = Some true \/ y = Some true.
Proof. destruct x as [[]|], y as [[]|]; cbn; split; intros; intuition congruence. Qed.

Lemma orHit_is_Some x y : is_Some (orHit x y) <-> is_Some x \/ is_Some y.
Proof.
  destruct x as [[]|], y as [[]|]; cbn; split; intros; eauto;
    intuition (eauto; try (match goal with H : is_Some None |- _ => destruct H; discriminate end)).
Qed.

Lemma lineHit_Merge_true (l : list Modules) m f n :
  lineHit (Merge l) m f n = Some true <-> exists d, d ∈ l /\ lineHit d m f n = Some true.
Proof.
  induction l as [|a l IH]; cbn.
  - rewrite lineHit_empty. split; [discriminate|]. intros (d & Hd & _). inversion Hd.
  - rewrite lineHit_mergeModules, orHit_true, IH. split.
    + intros [Ha|(d & Hd & Hh)]; [exists a|exists d]; split; auto; constructor; auto.
    + intros (d & Hd & Hh). apply elem_of_cons in Hd as [->|Hd]; eauto.
Qed.

Lemma lineHit_Merge_is_Some (l : list Modules) m f n :
  is_Some (lineHit (Merge l) m f n) <-> exists d, d ∈ l /\ is_Some (lineHit d m f n).
Proof.
  induction l as [|a l IH]; cbn.
  - rewrite lineHit_empty. split; [intros [? ?]; discriminate|].
    intros (d & Hd & _). inversion Hd.
  - rewrite lineHit_mergeModules, orHit_is_Some, IH. split.
    + intros [Ha|(d & Hd & Hh)]; [exists a|exists d]; split; auto; constructor; auto.
    + intros (d & Hd & Hh). apply elem_of_cons in Hd as [->|Hd]; eauto.
Qed.

Lemma Merge_permutation (l1 l2 : list Modules) : l1 ≡ₚ l2 -> Merge l1 = Merge l2.
Proof.
  unfold Merge.
  induction 1 as [|a l1 l2 _ IH|a b l|l1 l2 l3 _ IH1 _ IH2]; cbn.
  - reflexivity.
  - by rewrite IH.
  - rewrite !mergeModules_assoc. f_equal. apply mergeModules_comm.
  - congruence.
Qed.


(** *** The view by file *)













End MergerFacts.

(** * Facts about the orchestration *)

Section Facts.
Context `{Collaborators}.

(** ** The monad *)

Lemma bind_unfold {A B} (m : M A) (f : A -> M B) w :
  bind m f w =
  match outcome (m w) with
  | Returned a => prepend (trace (m w)) (f a (world (m w)))
  | Thrown e => mkResult (trace (m w)) (world (m w)) (Thrown e)
  end.
Proof. reflexivity. Qed.

Lemma call_unfold {A} (f : Ext A) ev w :
  call f ev w = mkResult [ev (f w).2] (f w).1 (f w).2.
Proof. unfold call. destruct (f w); reflexivity. Qed.

#[local] Arguments bind : simpl never.
#[local] Arguments call : simpl never.

(** ** The relations are sound *)

Lemma LoadInputCoverageDatas_loop_spec acc paths w :
  let r := LoadInputCoverageDatas_loop acc paths w in
  exists o, LoadTrace paths (trace r) o /\
    outcome r = match o with Returned ds => Returned (acc ++ ds) | Thrown e => Thrown e end.
Proof.
  revert acc w. induction paths as [|p rest IH]; intros acc w; cbn zeta.
  - exists (Returned []). cbn. rewrite app_nil_r. auto.
  - cbn [LoadInputCoverageDatas_loop]. rewrite bind_unfold; cbn.
    rewrite bind_unfold, call_unfold; cbn.
    destruct (Deserialize p _ w) as [w1 [d|e]] eqn:Hd; cbn.
    + destruct (IH (acc ++ [d]) w1) as (o & Ht & Ho). cbn zeta in Ht, Ho.
      rewrite Ho. destruct o as [ds|e]; cbn in Ht |- *.
      * exists (Returned (d :: ds)). cbn. destruct Ht as [Hl ->].
        rewrite <- app_assoc. cbn. auto.
      * exists (Thrown e). cbn. split; [|reflexivity].
        destruct Ht as (done & q & rest' & ds & -> & Hl & ->).
        exists (p :: done), q, rest', (d :: ds). cbn. auto.
    + exists (Thrown e). cbn. split; [|reflexivity].
      exists [], p, rest, []. auto.
Qed.

Lemma loaded_load_events paths ds :
  length ds = length paths -> loaded (load_events paths ds) = ds.
Proof.
  revert ds. induction paths as [|p rest IH]; intros [|d ds] Hl; try discriminate; cbn.
  - reflexivity.
  - unfold loaded in IH. unfold load_events in IH. rewrite IH; [reflexivity|].
    cbn in Hl. congruence.
Qed.

Lemma registry_lookup html cobertura binary t :
  registry html cobertura binary !! t = Some (registered html cobertura binary t).
Proof. destruct t; reflexivity. Qed.

Lemma Export_one_sound exporters prefix c x ex w :
  exporters !! GetType x = Some ex ->
  ExportOne ex prefix c x (trace (Export_one exporters prefix c x w))
                          (outcome (Export_one exporters prefix c x w)).
Proof.
  intros Hex. unfold Export_one, map_at. rewrite Hex.
  rewrite bind_unfold; cbn. rewrite bind_unfold.
  destruct (GetOutputPath x) as [p|] eqn:Hp; cbn.
  - rewrite call_unfold; cbn.
    destruct (exporter_Export ex c p w) as [w' r] eqn:He; cbn.
    eapply EO_explicit; eauto.
  - rewrite call_unfold; cbn.
    destruct (exporter_GetDefaultPath ex prefix w) as [w1 [out|e]] eqn:Hg; cbn.
    + rewrite call_unfold; cbn.
      destruct (exporter_Export ex c out w1) as [w2 r] eqn:He; cbn.
      eapply EO_default; eauto.
    + eapply EO_default_throws; eauto.
Qed.

Lemma Export_loop_sound exporters prefix c exports w :
  (forall t, is_Some (exporters !! t)) ->
  ExportLoop exporters prefix c exports
    (trace (Export_loop exporters prefix c exports w))
    (outcome (Export_loop exporters prefix c exports w)).
Proof.
  intros Hfull. revert w. induction exports as [|x rest IH]; intros w.
  - constructor.
  - cbn [Export_loop]. rewrite bind_unfold.
    destruct (Hfull (GetType x)) as [ex Hex].
    pose proof (Export_one_sound exporters prefix c x ex w Hex) as Hone.
    destruct (outcome (Export_one exporters prefix c x w)) as [[]|e]; cbn.
    + eapply EL_next; eauto.
    + eapply EL_throws; eauto.
Qed.

Lemma Export_sound options c w :
  ExportTrace options c (trace (Export options c w)) (outcome (Export options c w)).
Proof.
  unfold Export. rewrite bind_unfold, call_unfold; cbn.
  destruct (GetTemplateFolder w) as [w1 [tf|e]]; cbn; [|constructor].
  rewrite bind_unfold, call_unfold; cbn.
  destruct (HtmlExporter tf w1) as [w2 [html|e]]; cbn; [|constructor].
  rewrite bind_unfold, call_unfold; cbn.
  destruct (CoberturaExporter w2) as [w3 [cobertura|e]]; cbn; [|constructor].
  rewrite bind_unfold, call_unfold; cbn.
  destruct (BinaryExporter w3) as [w4 [binary|e]]; cbn; [|constructor].
  apply (ET_loop options c tf html cobertura binary).
  apply Export_loop_sound. intros t.
  fold (registry html cobertura binary). rewrite registry_lookup. eauto.
Qed.

Lemma exit_check_unfold exitCode w :
  ((if decide (exitCode = 0) then ret tt
    else LOG_ERROR [Text "Your program stop with error code: "; Num exitCode]) ;;
   ret exitCode) w = mkResult (exit_log exitCode) w (Returned exitCode).
Proof. unfold exit_log. destruct (decide (exitCode = 0)); reflexivity. Qed.

Lemma Finish_sound options datas exitCode w :
  let r :=
    (coverageData <- call (Merge datas) (EvMerge datas) ;;
     coverageData <-
       (if IsAggregateByFileModeEnabled options
        then call (MergeFileCoverage coverageData) (EvMergeFileCoverage coverageData)
        else ret coverageData) ;;
     Export options coverageData ;;
     (if decide (exitCode = 0) then ret tt
      else LOG_ERROR [Text "Your program stop with error code: "; Num exitCode]) ;;
     ret exitCode) w in
  FinishTrace options datas exitCode (trace r) (outcome r).
Proof.
  cbn zeta. rewrite bind_unfold, call_unfold; cbn.
  destruct (Merge datas w) as [w1 [m|e]]; cbn; [|constructor].
  rewrite bind_unfold.
  assert (Hagg : exists r : Result CoverageData,
    (if IsAggregateByFileModeEnabled options
     then call (MergeFileCoverage m) (EvMergeFileCoverage m)
     else ret m) w1 = r /\
    match outcome r with
    | Returned m' => aggregated options m m' (trace r)
    | Thrown e => IsAggregateByFileModeEnabled options = true /\
                  trace r = [EvMergeFileCoverage m (Thrown e)]
    end).
  { eexists; split; [reflexivity|]. unfold aggregated.
    destruct (IsAggregateByFileModeEnabled options); cbn; [|auto].
    rewrite call_unfold; cbn. destruct (MergeFileCoverage m w1) as [w2 [m'|e]]; cbn; auto. }
  destruct Hagg as (ra & -> & Hra).
  destruct ra as [ta w2 [m'|e]]; cbn in Hra |- *.
  - rewrite bind_unfold.
    pose proof (Export_sound options m' w2) as He.
    destruct (Export options m' w2) as [te w3 [[]|e]]; cbn in He |- *.
    + rewrite exit_check_unfold; cbn. eapply FT_Returned; eauto.
    + eapply FT_Export; eauto.
  - destruct Hra as [Ha ->]. eapply FT_MergeFileCoverage; eauto.
Qed.

Theorem Run_sound options w :
  RunTrace options (trace (Run options w)) (outcome (Run options w)).
Proof.
  unfold Run, InitLogger.
  rewrite bind_unfold, bind_unfold, call_unfold; cbn.
  destruct (InitConsoleAndFileLog _ w) as [w1 [[]|e]]; cbn; [|constructor].
  rewrite call_unfold; cbn.
  fold (min_severity options).
  destruct (SetLoggerMinSeverity _ w1) as [w2 [[]|e]]; cbn; [|constructor].
  rewrite bind_unfold. unfold LoadInputCoverageDatas.
  destruct (LoadInputCoverageDatas_loop_spec [] (GetInputCoveragePaths options) w2)
    as (o & Hl & Ho). cbn zeta in Hl, Ho.
  destruct (LoadInputCoverageDatas_loop [] (GetInputCoveragePaths options) w2)
    as [tl w3 lo]. cbn in Hl, Ho |- *. subst lo.
  destruct o as [ds|e]; cbn; [|apply (RT_Load options tl e Hl)].
  rewrite bind_unfold; cbn. rewrite bind_unfold.
  destruct (GetStartInfo options) as [startInfo|] eqn:Hs.
  - rewrite bind_unfold, call_unfold; cbn.
    destruct (RunCoverage _ w3) as [w4 [cd|e]]; cbn.
    + pose proof (RT_Finish options tl ds (Some cd)) as Hr.
      unfold launch_ok, launch_events in Hr. rewrite Hs in Hr.
      apply (Hr _ _ Hl I). apply Finish_sound.
    + apply (RT_RunCoverage options tl ds startInfo e Hl Hs).
  - cbn. pose proof (RT_Finish options tl ds None) as Hr.
    unfold launch_ok, launch_events in Hr. rewrite Hs in Hr. cbn in Hr.
    rewrite app_nil_r in Hr.
    apply (Hr _ _ Hl I). apply Finish_sound.
Qed.

(** ** What the traces contain *)

Lemma load_events_elem paths ds ev :
  ev ∈ load_events paths ds ->
  (exists p, ev = load_log p) \/ (exists p d, ev = EvDeserialize p (errorMsg_of p) (Returned d)).
Proof.
  revert ds. induction paths as [|p rest IH]; intros [|d ds]; cbn;
    try (intros Hin; inversion Hin; fail).
  rewrite !elem_of_cons. intros [->|[->|Hin]]; eauto.
Qed.


Lemma LoadTrace_elem paths t o ev :
  LoadTrace paths t o -> ev ∈ t ->
  (exists p, ev = load_log p) \/ (exists p r, ev = EvDeserialize p (errorMsg_of p) r).
Proof.
  destruct o as [ds|e]; cbn.
  - intros [_ ->] Hin. destruct (load_events_elem _ _ _ Hin) as [|(p & d & ->)]; eauto.
  - intros (done & p & rest & ds & _ & _ & ->).
    rewrite elem_of_app, !elem_of_cons, elem_of_nil.
    intros [Hin|[->|[->|[]]]]; eauto.
    destruct (load_events_elem _ _ _ Hin) as [|(q & d & ->)]; eauto.
Qed.

Lemma LoadTrace_thrown paths t e :
  LoadTrace paths t (Thrown e) -> exists pre ev, t = pre ++ [ev] /\ thrown ev = Some e.
Proof.
  intros (done & p & rest & ds & _ & _ & ->).
  exists (load_events done ds ++ [load_log p]), (EvDeserialize p (errorMsg_of p) (Thrown e)).
  rewrite <- app_assoc. auto.
Qed.

Lemma ExportOne_elem ex prefix c x t o ev :
  ExportOne ex prefix c x t o -> ev ∈ t ->
  (exists r, ev = EvGetDefaultPath (GetType x) prefix r /\ GetOutputPath x = None) \/
  (exists out r, ev = EvExport (GetType x) c out r /\
     match GetOutputPath x with
     | Some p => out = p
     | None => EvGetDefaultPath (GetType x) prefix (Returned out) ∈ t /\
               exists w1 w2, exporter_GetDefaultPath ex prefix w1 = (w2, Returned out)
     end).
Proof.
  destruct 1 as [p r w w' Hp He|e w w' Hp Hg|out r w1 w2 w3 Hp Hg He];
    rewrite ?elem_of_cons, elem_of_nil; rewrite Hp.
  - intros [->|[]]. right. eauto.
  - intros [->|[]]. left. eauto.
  - intros [->|[->|[]]]; [left; eauto|right].
    exists out, r. split; [reflexivity|]. split; [left|eauto].
Qed.

Lemma ExportOne_returned ex prefix c x t :
  ExportOne ex prefix c x t (Returned tt) ->
  clean t /\
  exists out, EvExport (GetType x) c out (Returned tt) ∈ t /\
    match GetOutputPath x with
    | Some p => out = p
    | None => EvGetDefaultPath (GetType x) prefix (Returned out) ∈ t /\
              exists w1 w2, exporter_GetDefaultPath ex prefix w1 = (w2, Returned out)
    end.
Proof.
  inversion 1 as [p r w w' Hp He|e w w' Hp Hg|out r w1 w2 w3 Hp Hg He]; subst; rewrite Hp.
  - split; [repeat constructor|]. exists p. split; [left|reflexivity].
  - split; [repeat constructor|]. exists out. split; [right; left|].
    split; [left|eauto].
Qed.

Lemma ExportOne_thrown ex prefix c x t e :
  ExportOne ex prefix c x t (Thrown e) -> exists pre ev, t = pre ++ [ev] /\ thrown ev = Some e.
Proof.
  inversion 1 as [p r w w' Hp He|e' w w' Hp Hg|out r w1 w2 w3 Hp Hg He]; subst.
  - exists [], (EvExport (GetType x) c p (Thrown e)). auto.
  - exists [], (EvGetDefaultPath (GetType x) prefix (Thrown e)). auto.
  - exists [EvGetDefaultPath (GetType x) prefix (Returned out)],
           (EvExport (GetType x) c out (Thrown e)). auto.
Qed.

Lemma export_path_ok_mono ex prefix x t t' out :
  (forall ev, ev ∈ t -> ev ∈ t') ->
  export_path_ok ex prefix x t out -> export_path_ok ex prefix x t' out.
Proof.
  unfold export_path_ok. intros Hsub. destruct (GetOutputPath x); [auto|].
  intros [Hin Hw]. auto.
Qed.

Lemma ExportLoop_elem exporters prefix c exports t o ev :
  ExportLoop exporters prefix c exports t o -> ev ∈ t ->
  exists x ex, x ∈ exports /\ exporters !! GetType x = Some ex /\
    ((exists r, ev = EvGetDefaultPath (GetType x) prefix r /\ GetOutputPath x = None) \/
     (exists out r, ev = EvExport (GetType x) c out r /\ export_path_ok ex prefix x t out)).
Proof.
  induction 1 as [|x rest ex t e Hex Hone|x rest ex t t' o Hex Hone Hloop IH].
  - intros Hin. inversion Hin.
  - intros Hin. exists x, ex. split; [left|]. split; [exact Hex|].
    destruct (ExportOne_elem _ _ _ _ _ _ _ Hone Hin) as [|(out & r & -> & Hp)]; eauto.
  - rewrite elem_of_app. intros [Hin|Hin].
    + exists x, ex. split; [left|]. split; [exact Hex|].
      destruct (ExportOne_elem _ _ _ _ _ _ _ Hone Hin) as [|(out & r & -> & Hp)];
        [eauto|right].
      exists out, r. split; [reflexivity|].
      eapply export_path_ok_mono; [|exact Hp]. intros; apply elem_of_app; auto.
    + destruct (IH Hin) as (y & ey & Hy & Hey & Hev).
      exists y, ey. split; [right; exact Hy|]. split; [exact Hey|].
      destruct Hev as [|(out & r & -> & Hp)]; [eauto|right].
      exists out, r. split; [reflexivity|].
      eapply export_path_ok_mono; [|exact Hp]. intros; apply elem_of_app; auto.
Qed.

Lemma ExportLoop_returned exporters prefix c exports t :
  ExportLoop exporters prefix c exports t (Returned tt) ->
  clean t /\
  forall x, x ∈ exports ->
    exists ex out, exporters !! GetType x = Some ex /\
      EvExport (GetType x) c out (Returned tt) ∈ t /\ export_path_ok ex prefix x t out.
Proof.
  remember (Returned tt) as o eqn:Ho.
  induction 1 as [|x rest ex t e Hex Hone|x rest ex t t' o Hex Hone Hloop IH];
    [|discriminate|subst o].
  - split; [constructor|]. intros x Hx. inversion Hx.
  - destruct (ExportOne_returned _ _ _ _ _ Hone) as (Hc & out & Hin & Hp).
    destruct (IH eq_refl) as [Hc' Hall].
    split; [apply Forall_app; auto|].
    intros y Hy. apply elem_of_cons in Hy as [->|Hy].
    + exists ex, out. split; [exact Hex|]. split; [apply elem_of_app; auto|].
      eapply export_path_ok_mono; [|exact Hp]. intros; apply elem_of_app; auto.
    + destruct (Hall y Hy) as (ey & outy & Hey & Hiny & Hpy).
      exists ey, outy. split; [exact Hey|]. split; [apply elem_of_app; auto|].
      eapply export_path_ok_mono; [|exact Hpy]. intros; apply elem_of_app; auto.
Qed.

Lemma ExportLoop_thrown exporters prefix c exports t e :
  ExportLoop exporters prefix c exports t (Thrown e) ->
  exists pre ev, t = pre ++ [ev] /\ thrown ev = Some e.
Proof.
  remember (Thrown e) as o eqn:Ho.
  induction 1 as [|x rest ex t e' Hex Hone|x rest ex t t' o Hex Hone Hloop IH];
    [discriminate| |subst o].
  - injection Ho as ->. eapply ExportOne_thrown; eauto.
  - destruct (IH eq_refl) as (pre & ev & -> & Hev).
    exists (t ++ pre), ev. rewrite app_assoc. auto.
Qed.

Lemma ExportTrace_export_events options c t o ev :
  ExportTrace options c t o -> ev ∈ t -> is_export_event ev = true.
Proof.
  destruct 1 as [e|tf e|tf html e|tf html cobertura e|tf html cobertura binary t o Hloop];
    rewrite ?elem_of_app, ?elem_of_cons, ?elem_of_nil;
    try (intuition (subst; reflexivity)).
  intros [Hin|Hin]; [intuition (subst; reflexivity)|].
  destruct (ExportLoop_elem _ _ _ _ _ _ _ Hloop Hin)
    as (x & ex & _ & _ & [(r & -> & _)|(out & r & -> & _)]); reflexivity.
Qed.

Lemma ExportTrace_thrown options c t e :
  ExportTrace options c t (Thrown e) -> exists pre ev, t = pre ++ [ev] /\ thrown ev = Some e.
Proof.
  inversion 1 as [e'|tf e'|tf html e'|tf html cobertura e'
                 |tf html cobertura binary t' o Hloop]; subst.
  - exists [], (EvGetTemplateFolder (Thrown e)). auto.
  - exists [EvGetTemplateFolder (Returned tf)], (EvNewExporter Html (Thrown e)). auto.
  - exists [EvGetTemplateFolder (Returned tf); EvNewExporter Html (Returned html)],
           (EvNewExporter Cobertura (Thrown e)). auto.
  - exists [EvGetTemplateFolder (Returned tf); EvNewExporter Html (Returned html);
            EvNewExporter Cobertura (Returned cobertura)],
           (EvNewExporter Binary (Thrown e)). auto.
  - destruct (ExportLoop_thrown _ _ _ _ _ _ Hloop) as (pre & ev & -> & Hev).
    eexists (_ ++ pre), ev. rewrite <- app_assoc. auto.
Qed.

Lemma ExportTrace_elem options c t o ty c' out r :
  ExportTrace options c t o -> EvExport ty c' out r ∈ t ->
  c' = c /\
  exists x ex, x ∈ GetExports options /\ GetType x = ty /\ dispatched t ty ex /\
    export_path_ok ex (GetDefaultPathPrefix options) x t out.
Proof.
  destruct 1 as [e|tf e|tf html e|tf html cobertura e|tf html cobertura binary t o Hloop];
    rewrite ?elem_of_app, ?elem_of_cons, ?elem_of_nil;
    try (intuition discriminate).
  intros [Hin|Hin]; [intuition discriminate|].
  destruct (ExportLoop_elem _ _ _ _ _ _ _ Hloop Hin)
    as (x & ex & Hx & Hex & [(r' & Hev & _)|(out' & r' & Hev & Hp)]); [discriminate|].
  injection Hev as -> -> -> ->. split; [reflexivity|].
  exists x, ex. split; [exact Hx|]. split; [reflexivity|]. split.
  - rewrite registry_lookup in Hex. injection Hex as <-. unfold dispatched.
    rewrite elem_of_app, !elem_of_cons. left.
    destruct (GetType x); cbn; auto.
  - eapply export_path_ok_mono; [|exact Hp]. intros; apply elem_of_app; auto.
Qed.

Lemma ExportTrace_returned options c t :
  ExportTrace options c t (Returned tt) ->
  clean t /\
  forall x, x ∈ GetExports options ->
    exists ex out, dispatched t (GetType x) ex /\
      EvExport (GetType x) c out (Returned tt) ∈ t /\
      export_path_ok ex (GetDefaultPathPrefix options) x t out.
Proof.
  inversion 1 as [e'|tf e'|tf html e'|tf html cobertura e'
                 |tf html cobertura binary t' o Hloop]; subst.
  destruct (ExportLoop_returned _ _ _ _ _ Hloop) as [Hc Hall].
  split; [apply Forall_app; split; [repeat constructor|exact Hc]|].
  intros x Hx. destruct (Hall x Hx) as (ex & out & Hex & Hin & Hp).
  exists ex, out. split; [|split].
  - rewrite registry_lookup in Hex. injection Hex as <-. unfold dispatched.
    rewrite elem_of_app, !elem_of_cons. left.
    destruct (GetType x); cbn; auto.
  - apply elem_of_app; auto.
  - eapply export_path_ok_mono; [|exact Hp]. intros; apply elem_of_app; auto.
Qed.

(** Membership in a trace of [Run], segment by segment. *)
Lemma launch_events_elem options l ev :
  ev ∈ launch_events options l ->
  exists startInfo cd, GetStartInfo options = Some startInfo /\ l = Some cd /\
    ev = EvRunCoverage (runCoverageSettings options startInfo) (Returned cd).
Proof.
  unfold launch_events. destruct (GetStartInfo options) as [si|], l as [cd|];
    rewrite ?elem_of_cons, ?elem_of_nil; intros Hin; try tauto.
  destruct Hin as [->|[]]. eauto.
Qed.


Lemma aggregated_elem options m m' ta ev :
  aggregated options m m' ta -> ev ∈ ta ->
  IsAggregateByFileModeEnabled options = true /\ ev = EvMergeFileCoverage m (Returned m').
Proof.
  unfold aggregated. destruct (IsAggregateByFileModeEnabled options).
  - intros ->. rewrite elem_of_cons, elem_of_nil. intros [->|[]]. auto.
  - intros [-> _] Hin. inversion Hin.
Qed.

Lemma exit_log_elem exitCode ev :
  ev ∈ exit_log exitCode ->
  exitCode <> 0 /\
  ev = EvLog sev_error [Text "Your program stop with error code: "; Num exitCode].
Proof.
  unfold exit_log. destruct (decide (exitCode = 0)).
  - intros Hin. inversion Hin.
  - rewrite elem_of_cons, elem_of_nil. intros [->|[]]. auto.
Qed.

Ltac split_trace H :=
  repeat (rewrite ?elem_of_app, ?elem_of_cons, ?elem_of_nil in H);
  repeat match type of H with
         | _ \/ _ => destruct H as [H|H]
         | False => destruct H
         end.

Ltac segment H :=
  match type of H with
  | _ ∈ init_events _ => unfold init_events in H; split_trace H; try discriminate H
  | _ ∈ launch_events _ _ =>
      apply launch_events_elem in H; destruct H as (? & ? & ? & ? & H)
  | _ ∈ exit_log _ => apply exit_log_elem in H; destruct H as (? & H)
  | _ ∈ ?ta =>
      match goal with
      | Ha : aggregated _ _ _ ta |- _ =>
          apply (aggregated_elem _ _ _ _ _ Ha) in H; destruct H as (? & H)
      | Hl : LoadTrace _ ta _ |- _ =>
          apply (LoadTrace_elem _ _ _ _ Hl) in H; destruct H as [(? & H)|(? & ? & H)]
      | He : ExportTrace _ _ ta _ |- _ =>
          apply (ExportTrace_export_events _ _ _ _ _ He) in H; cbn in H
      end
  | _ = _ => idtac
  end.

Ltac reassoc :=
  split; [|solve [auto]];
  repeat (rewrite <- ?app_assoc; cbn [app]); reflexivity.

Lemma FinishTrace_thrown options datas exitCode t e :
  FinishTrace options datas exitCode t (Thrown e) ->
  exists pre ev, t = pre ++ [ev] /\ thrown ev = Some e.
Proof.
  inversion 1 as [e'|m e' Ha|m ta m' te e' Ha He|m ta m' te Ha He]; subst.
  - exists [], (EvMerge datas (Thrown e)). auto.
  - exists [EvMerge datas (Returned m)], (EvMergeFileCoverage m (Thrown e)). auto.
  - destruct (ExportTrace_thrown _ _ _ _ He) as (pre & ev & -> & Hev).
    exists (EvMerge datas (Returned m) :: ta ++ pre), ev. reassoc.
Qed.

(** [Run] fails only when a collaborator throws, in its last event. *)
Lemma RunTrace_thrown options t e :
  RunTrace options t (Thrown e) -> exists pre ev, t = pre ++ [ev] /\ thrown ev = Some e.
Proof.
  inversion 1 as [e'|e'|tl e' Hl|tl ds si e' Hl Hs|tl ds l tf o Hl Hk Hf]; subst.
  - exists [], (EvInitConsoleAndFileLog "LastCoverageResults.log" (Thrown e)). auto.
  - eexists [_], (EvSetLoggerMinSeverity _ (Thrown e)). auto.
  - destruct (LoadTrace_thrown _ _ _ Hl) as (pre & ev & -> & Hev).
    exists (init_events options ++ pre), ev. reassoc.
  - eexists (init_events options ++ tl ++ [start_log options]), (EvRunCoverage _ (Thrown e)).
    reassoc.
  - destruct (FinishTrace_thrown _ _ _ _ _ Hf) as (pre & ev & -> & Hev).
    exists (init_events options ++ tl ++ start_log options :: launch_events options l ++ pre),
           ev.
    reassoc.
Qed.

Lemma RunTrace_clean options t o :
  RunTrace options t o -> clean t -> exists exitCode, o = Returned exitCode.
Proof.
  intros Hr Hc. destruct o as [code|e]; [eauto|].
  destruct (RunTrace_thrown _ _ _ Hr) as (pre & ev & -> & Hev).
  unfold clean in Hc. rewrite Forall_app, Forall_singleton in Hc.
  destruct Hc as [_ Hc]. congruence.
Qed.

(** The events of the second half, one kind at a time. *)
Lemma FinishTrace_elem options datas exitCode t o ev :
  FinishTrace options datas exitCode t o -> ev ∈ t ->
  (exists rm, ev = EvMerge datas rm) \/
  (exists m r, ev = EvMergeFileCoverage m r /\
               IsAggregateByFileModeEnabled options = true /\
               EvMerge datas (Returned m) ∈ t) \/
  is_export_event ev = true \/
  (exitCode <> 0 /\ o = Returned exitCode /\
   ev = EvLog sev_error [Text "Your program stop with error code: "; Num exitCode]).
Proof.
  destruct 1 as [e'|m e' Ha|m ta m' te e' Ha He|m ta m' te Ha He];
    intros Hin; split_trace Hin; segment Hin; subst; eauto 6.
  - right; left. exists m, (Thrown e'). repeat split; auto. left.
  - right; left. exists m, (Returned m'). repeat split; auto. left.
  - right; left. exists m, (Returned m'). repeat split; auto. left.
Qed.

Lemma FinishTrace_merged options datas exitCode t o :
  FinishTrace options datas exitCode t o -> exists rm post, t = EvMerge datas rm :: post.
Proof. destruct 1; eauto. Qed.


Lemma FinishTrace_returned options datas exitCode t code :
  FinishTrace options datas exitCode t (Returned code) ->
  code = exitCode /\
  exists m m' ta te,
    t = EvMerge datas (Returned m) :: ta ++ te ++ exit_log exitCode /\
    aggregated options m m' ta /\ ExportTrace options m' te (Returned tt).
Proof.
  inversion 1 as [e'|m e' Ha|m ta m' te e' Ha He|m ta m' te Ha He]; subst.
  split; [reflexivity|]. exists m, m', ta, te. auto.
Qed.

Ltac finish_segment H :=
  match type of H with
  | _ ∈ ?tf =>
      match goal with
      | Hf : FinishTrace _ _ _ tf _ |- _ =>
          apply (FinishTrace_elem _ _ _ _ _ _ Hf) in H;
          destruct H as [(? & H)|[(? & ? & H & ? & ?)|[H|(? & ? & H)]]]; cbn in H
      end
  | _ => segment H
  end.

Lemma RunTrace_launch options t o s r :
  RunTrace options t o -> EvRunCoverage s r ∈ t ->
  exists startInfo, GetStartInfo options = Some startInfo /\
                    s = runCoverageSettings options startInfo.
Proof.
  inversion 1 as [e'|e'|tl e' Hl|tl ds si e' Hl Hs|tl ds l tf o' Hl Hk Hf];
    subst; intros Hin; split_trace Hin; finish_segment Hin; try discriminate Hin;
    injection Hin as -> ?; eauto.
Qed.

Lemma RunTrace_launched options t o s cd :
  RunTrace options t o -> EvRunCoverage s (Returned cd) ∈ t ->
  exists tl ds tf,
    LoadTrace (GetInputCoveragePaths options) tl (Returned ds) /\
    t = init_events options ++ tl ++ start_log options :: EvRunCoverage s (Returned cd) :: tf /\
    FinishTrace options (ds ++ [cd]) (GetExitCode cd) tf o.
Proof.
  inversion 1 as [e'|e'|tl e' Hl|tl ds si e' Hl Hs|tl ds l tf o' Hl Hk Hf];
    subst; intros Hin; split_trace Hin; finish_segment Hin; try discriminate Hin.
  subst l. injection Hin as -> ->.
  exists tl, ds, tf. split; [exact Hl|]. split; [|exact Hf].
  unfold launch_events.
  match goal with Hs : GetStartInfo options = Some _ |- _ => rewrite Hs end.
  reflexivity.
Qed.

Lemma RunTrace_merge_only options t o :
  GetStartInfo options = None -> RunTrace options t o ->
  (forall s r, EvRunCoverage s r ∉ t) /\
  ((exists e, o = Thrown e /\ forall d r, EvMerge d r ∉ t) \/
   exists tl ds tf,
     LoadTrace (GetInputCoveragePaths options) tl (Returned ds) /\
     t = init_events options ++ tl ++ start_log options :: tf /\
     FinishTrace options ds 0 tf o).
Proof.
  intros Hs Hr. split.
  - intros s r Hin. destruct (RunTrace_launch _ _ _ _ _ Hr Hin) as (si & Hsi & _).
    congruence.
  - inversion Hr as [e'|e'|tl e' Hl|tl ds si e' Hl Hsi|tl ds l tf o' Hl Hk Hf]; subst;
      try congruence.
    + left. exists e'. split; [reflexivity|].
      intros d r Hin. split_trace Hin; discriminate Hin.
    + left. exists e'. split; [reflexivity|].
      intros d r Hin. split_trace Hin; discriminate Hin.
    + left. exists e'. split; [reflexivity|].
      intros d r Hin. split_trace Hin; segment Hin; discriminate Hin.
    + right. unfold launch_ok, launch_events in *. rewrite Hs in *.
      destruct l; [contradiction|]. cbn in Hf. rewrite app_nil_r in Hf.
      exists tl, ds, tf. auto.
Qed.

Lemma RunTrace_logs options t o severity msg :
  RunTrace options t o -> EvLog severity msg ∈ t ->
  severity = sev_info \/
  (severity = sev_error /\ exists exitCode, exitCode <> 0 /\ o = Returned exitCode /\
     msg = [Text "Your program stop with error code: "; Num exitCode]).
Proof.
  inversion 1 as [e'|e'|tl e' Hl|tl ds si e' Hl Hs|tl ds l tf o' Hl Hk Hf];
    subst; intros Hin; split_trace Hin; finish_segment Hin; try discriminate Hin;
    try (injection Hin as -> ->; auto).
  right. split; [reflexivity|]. eauto.
Qed.


Lemma loaded_before_launch options tl ds :
  LoadTrace (GetInputCoveragePaths options) tl (Returned ds) ->
  loaded (init_events options ++ tl ++ [start_log options]) = ds.
Proof.
  intros [Hlen ->]. unfold loaded. rewrite !omap_app. cbn.
  rewrite app_nil_r. apply loaded_load_events, Hlen.
Qed.

Lemma size_t_max_neq_30 : size_t_max <> 30.
Proof.
  unfold size_t_max. generalize size_t_bits. intros n Hn.
  assert (Hp : 2 ^ n = 31) by lia. clear Hn.
  destruct (Z.lt_ge_cases n 0) as [Hneg|Hpos].
  - rewrite Z.pow_neg_r in Hp by exact Hneg. discriminate.
  - destruct (Z.lt_ge_cases n 5) as [Hlt|Hge].
    + assert (Hc : n = 0 \/ n = 1 \/ n = 2 \/ n = 3 \/ n = 4) by lia.
      destruct Hc as [->|[->|[->|[->| ->]]]]; discriminate.
    + pose proof (Z.pow_le_mono_r 2 5 n) as Hm. lia.
Qed.

(** ** More facts, for the properties beyond the claims *)

Lemma omap_none {A B} (f : A -> option B) (t : list A) :
  (forall x, x ∈ t -> f x = None) -> omap f t = [].
Proof.
  induction t as [|a t IH]; intros Hn; [reflexivity|]. cbn.
  rewrite (Hn a) by apply list_elem_of_here.
  apply IH. intros x Hx. apply Hn, list_elem_of_further, Hx.
Qed.

Theorem Main_sound argv w :
  MainTrace argv (trace (OpenCppCoverage_Run argv w)) (outcome (OpenCppCoverage_Run argv w)).
Proof.
  unfold OpenCppCoverage_Run. rewrite bind_unfold, call_unfold.
  destruct (Parse argv w) as [w1 [[options|]|e]]; cbn [fst snd outcome trace world prepend];
    [|constructor|constructor].
  rewrite bind_unfold. unfold try_catch.
  pose proof (Run_sound options w1) as Hr.
  destruct (Run options w1) as [t w2 [c|e]]; cbn [outcome trace world prepend] in Hr |- *.
  - rewrite bind_unfold, call_unfold.
    destruct (DisplayWarnings w2) as [w3 [[]|e']]; cbn [fst snd outcome trace world prepend].
    + rewrite bind_unfold.
      pose proof (MT_Run argv options t _ (Returned tt) Hr) as Hm.
      unfold paused, pause_events, status_of, caught in Hm.
      destruct (IsPlugingModeEnabled options); cbn in Hm |- *; exact Hm.
    + pose proof (MT_Run argv options t _ (Thrown e') Hr) as Hm.
      unfold paused, status_of, caught in Hm. cbn in Hm |- *. exact Hm.
  - assert (Hlog : forall w0,
      ((match e with
        | StdException what => LOG_ERROR [Text "Error: "; Text what]
        | UnknownException => LOG_ERROR [Text "Unkown Error"]
        end ;; ret FailureExitCode) w0)
      = mkResult [EvLog sev_error (catch_message e)] w0 (Returned FailureExitCode)).
    { intros w0. destruct e; reflexivity. }
    rewrite Hlog. cbn [outcome trace world prepend].
    rewrite bind_unfold, call_unfold.
    destruct (DisplayWarnings w2) as [w3 [[]|e']]; cbn [fst snd outcome trace world prepend].
    + rewrite bind_unfold.
      pose proof (MT_Run argv options t _ (Returned tt) Hr) as Hm.
      unfold paused, pause_events, status_of, caught in Hm.
      destruct (IsPlugingModeEnabled options); cbn in Hm |- *;
        rewrite <- ?app_assoc; cbn; exact Hm.
    + pose proof (MT_Run argv options t _ (Thrown e') Hr) as Hm.
      unfold paused, status_of, caught in Hm. cbn in Hm |- *.
      rewrite <- ?app_assoc; cbn; exact Hm.
Qed.

(** Projections of the segments of a trace. *)
Lemma load_events_omap {B} (f : Event -> option B) paths ds :
  (forall sev msg, f (EvLog sev msg) = None) ->
  (forall p m r, f (EvDeserialize p m r) = None) ->
  omap f (load_events paths ds) = [].
Proof.
  intros Hlog Hdes. apply omap_none. intros ev Hin.
  destruct (load_events_elem _ _ _ Hin) as [[p ->]|(p & d & ->)];
    [apply Hlog|apply Hdes].
Qed.

Lemma LoadTrace_omap {B} (f : Event -> option B) paths tl o :
  (forall sev msg, f (EvLog sev msg) = None) ->
  (forall p m r, f (EvDeserialize p m r) = None) ->
  LoadTrace paths tl o -> omap f tl = [].
Proof.
  intros Hlog Hdes Hl. apply omap_none. intros ev Hin.
  destruct (LoadTrace_elem _ _ _ _ Hl Hin) as [[p ->]|(p & r & ->)];
    [apply Hlog|apply Hdes].
Qed.

Lemma ExportTrace_omap {B} (f : Event -> option B) options c te o :
  (forall ev, is_export_event ev = true -> f ev = None) ->
  ExportTrace options c te o -> omap f te = [].
Proof.
  intros Hf He. apply omap_none. intros ev Hin.
  apply Hf, (ExportTrace_export_events _ _ _ _ _ He Hin).
Qed.

Lemma aggregated_omap {B} (f : Event -> option B) options m m' ta :
  (forall c r, f (EvMergeFileCoverage c r) = None) ->
  aggregated options m m' ta -> omap f ta = [].
Proof.
  intros Hf Ha. apply omap_none. intros ev Hin.
  destruct (aggregated_elem _ _ _ _ _ Ha Hin) as [_ ->]. apply Hf.
Qed.

Lemma exit_log_omap {B} (f : Event -> option B) exitCode :
  (forall sev msg, f (EvLog sev msg) = None) -> omap f (exit_log exitCode) = [].
Proof.
  intros Hf. unfold exit_log. destruct (decide (exitCode = 0)); cbn; [reflexivity|].
  rewrite Hf. reflexivity.
Qed.

Lemma FinishTrace_launches options datas exitCode tf o :
  FinishTrace options datas exitCode tf o -> omap launch_of tf = [].
Proof.
  intros Hf. apply omap_none. intros ev Hin.
  destruct (FinishTrace_elem _ _ _ _ _ _ Hf Hin)
    as [(rm & ->)|[(m & r & -> & _)|[He|(_ & _ & ->)]]]; try reflexivity.
  destruct ev; try discriminate He; reflexivity.
Qed.

Lemma FinishTrace_merges options datas exitCode tf o :
  FinishTrace options datas exitCode tf o -> exists rm, omap merge_of tf = [(datas, rm)].
Proof.
  assert (Hexp : forall ev, is_export_event ev = true -> merge_of ev = None).
  { intros ev He. destruct ev; try discriminate He; reflexivity. }
  destruct 1 as [e'|m e' Ha|m ta m' te e' Ha He|m ta m' te Ha He]; cbn; eauto.
  - rewrite omap_app, (aggregated_omap merge_of _ _ _ _ (fun _ _ => eq_refl) Ha),
      (ExportTrace_omap merge_of _ _ _ _ Hexp He). eauto.
  - rewrite !omap_app, (aggregated_omap merge_of _ _ _ _ (fun _ _ => eq_refl) Ha),
      (ExportTrace_omap merge_of _ _ _ _ Hexp He),
      (exit_log_omap merge_of _ (fun _ _ => eq_refl)). eauto.
Qed.

Lemma launch_events_omap options l :
  omap launch_of (launch_events options l) =
    match GetStartInfo options, l with
    | Some startInfo, Some cd => [(runCoverageSettings options startInfo, Returned cd)]
    | _, _ => []
    end.
Proof. unfold launch_events. destruct (GetStartInfo options), l; reflexivity. Qed.

Lemma launch_events_merges options l : omap merge_of (launch_events options l) = [].
Proof. unfold launch_events. destruct (GetStartInfo options), l; reflexivity. Qed.

(** The runner and the merger are called at most once. *)
Lemma RunTrace_calls options t o :
  RunTrace options t o ->
  (length (omap launch_of t) <= 1)%nat /\
  (length (omap merge_of t) <= 1)%nat /\
  (GetStartInfo options = None -> omap launch_of t = []) /\
  (forall exitCode, o = Returned exitCode ->
     length (omap merge_of t) = 1%nat /\
     (is_Some (GetStartInfo options) -> length (omap launch_of t) = 1%nat)).
Proof.
  inversion 1 as [e'|e'|tl e' Hl|tl ds si e' Hl Hs|tl ds l tf o' Hl Hk Hf]; subst.
  - cbn. repeat split; (lia || reflexivity || discriminate).
  - cbn. repeat split; (lia || reflexivity || discriminate).
  - rewrite !omap_app.
    rewrite (LoadTrace_omap launch_of _ _ _ (fun _ _ => eq_refl) (fun _ _ _ => eq_refl) Hl),
      (LoadTrace_omap merge_of _ _ _ (fun _ _ => eq_refl) (fun _ _ _ => eq_refl) Hl).
    cbn. repeat split; (lia || reflexivity || discriminate).
  - rewrite !omap_app.
    rewrite (LoadTrace_omap launch_of _ _ _ (fun _ _ => eq_refl) (fun _ _ _ => eq_refl) Hl),
      (LoadTrace_omap merge_of _ _ _ (fun _ _ => eq_refl) (fun _ _ _ => eq_refl) Hl).
    cbn. repeat split; try (lia || discriminate). congruence.
  - destruct (FinishTrace_merges _ _ _ _ _ Hf) as [rm Hm].
    rewrite !omap_app. cbn. rewrite !omap_app.
    rewrite (LoadTrace_omap launch_of _ _ _ (fun _ _ => eq_refl) (fun _ _ _ => eq_refl) Hl),
      (LoadTrace_omap merge_of _ _ _ (fun _ _ => eq_refl) (fun _ _ _ => eq_refl) Hl),
      (FinishTrace_launches _ _ _ _ _ Hf), Hm, launch_events_omap, launch_events_merges.
    unfold launch_ok in Hk. cbn.
    destruct (GetStartInfo options) as [si|], l as [cd|]; try contradiction; cbn.
    + repeat split; try (lia || discriminate).
    + repeat split; try (lia || reflexivity). intros [x Hx]; discriminate.
Qed.

Lemma RunTrace_run_events options t o ev :
  RunTrace options t o -> ev ∈ t -> is_run_event ev = true.
Proof.
  inversion 1 as [e'|e'|tl e' Hl|tl ds si e' Hl Hs|tl ds l tf o' Hl Hk Hf];
    subst; intros Hin; split_trace Hin; finish_segment Hin; subst; try reflexivity.
  all: destruct ev; try discriminate Hin; reflexivity.
Qed.

(** The records [Run] logs at error level. *)
Lemma FinishTrace_errors options datas exitCode tf o :
  FinishTrace options datas exitCode tf o ->
  omap error_of tf = match o with Returned _ => omap error_of (exit_log exitCode) | Thrown _ => [] end.
Proof.
  assert (Hexp : forall ev, is_export_event ev = true -> error_of ev = None).
  { intros ev He. destruct ev; try discriminate He; reflexivity. }
  destruct 1 as [e'|m e' Ha|m ta m' te e' Ha He|m ta m' te Ha He]; cbn; try reflexivity.
  - rewrite omap_app, (aggregated_omap error_of _ _ _ _ (fun _ _ => eq_refl) Ha),
      (ExportTrace_omap error_of _ _ _ _ Hexp He). reflexivity.
  - rewrite !omap_app, (aggregated_omap error_of _ _ _ _ (fun _ _ => eq_refl) Ha),
      (ExportTrace_omap error_of _ _ _ _ Hexp He). reflexivity.
Qed.

Lemma load_events_errors paths ds : omap error_of (load_events paths ds) = [].
Proof.
  apply omap_none. intros ev Hin.
  destruct (load_events_elem _ _ _ Hin) as [[p ->]|(p & d & ->)]; reflexivity.
Qed.

Lemma LoadTrace_errors paths tl o : LoadTrace paths tl o -> omap error_of tl = [].
Proof.
  intros Hl. apply omap_none. intros ev Hin.
  destruct (LoadTrace_elem _ _ _ _ Hl Hin) as [[p ->]|(p & r & ->)]; reflexivity.
Qed.

Lemma launch_events_errors options l : omap error_of (launch_events options l) = [].
Proof. unfold launch_events. destruct (GetStartInfo options), l; reflexivity. Qed.

Lemma RunTrace_errors options t o :
  RunTrace options t o ->
  omap error_of t =
    match o with
    | Returned exitCode => omap error_of (exit_log exitCode)
    | Thrown _ => []
    end.
Proof.
  inversion 1 as [e'|e'|tl e' Hl|tl ds si e' Hl Hs|tl ds l tf o' Hl Hk Hf]; subst;
    try reflexivity.
  - rewrite omap_app, (LoadTrace_errors _ _ _ Hl). reflexivity.
  - rewrite !omap_app, (LoadTrace_errors _ _ _ Hl). reflexivity.
  - rewrite !omap_app. cbn. rewrite omap_app,
      (LoadTrace_errors _ _ _ Hl), launch_events_errors,
      (FinishTrace_errors _ _ _ _ _ Hf). cbn.
    destruct o as [c|e]; [|reflexivity].
    apply FinishTrace_returned in Hf as [-> _]. reflexivity.
Qed.

(** A snapshot that cannot be read ends the run there. *)
Lemma RunTrace_unreadable options t o p msg e :
  RunTrace options t o -> EvDeserialize p msg (Thrown e) ∈ t ->
  o = Thrown e /\
  (exists pre, t = pre ++ [EvDeserialize p msg (Thrown e)]) /\
  omap launch_of t = [] /\ omap merge_of t = [] /\
  (forall ev, ev ∈ t -> is_export_event ev = false).
Proof.
  inversion 1 as [e'|e'|tl e' Hl|tl ds si e' Hl Hs|tl ds l tf o' Hl Hk Hf]; subst; intros Hin.
  - split_trace Hin; discriminate Hin.
  - split_trace Hin; discriminate Hin.
  - pose proof Hl as Hl'.
    destruct Hl as (done & q & rest & ds & Hp & Hlen & ->).
    assert (Heq : EvDeserialize p msg (Thrown e) = EvDeserialize q (errorMsg_of q) (Thrown e')).
    { unfold init_events in Hin. split_trace Hin; try discriminate Hin; try exact Hin.
      destruct (load_events_elem _ _ _ Hin) as [[x Hx]|(x & d & Hx)]; discriminate Hx. }
    injection Heq as -> -> ->. split; [reflexivity|]. split.
    { exists (init_events options ++ load_events done ds ++ [load_log q]).
      repeat (rewrite <- ?app_assoc; cbn [app]). reflexivity. }
    split.
    { rewrite omap_app,
        (LoadTrace_omap launch_of _ _ _ (fun _ _ => eq_refl) (fun _ _ _ => eq_refl) Hl').
      reflexivity. }
    split.
    { rewrite omap_app,
        (LoadTrace_omap merge_of _ _ _ (fun _ _ => eq_refl) (fun _ _ _ => eq_refl) Hl').
      reflexivity. }
    intros ev Hev. unfold init_events in Hev. split_trace Hev; try (subst ev; reflexivity).
    destruct (load_events_elem _ _ _ Hev) as [[x ->]|(x & d & ->)]; reflexivity.
  - destruct Hl as [Hlen ->]. unfold init_events in Hin.
    split_trace Hin; try discriminate Hin.
    destruct (load_events_elem _ _ _ Hin) as [[x Hx]|(x & d & Hx)]; discriminate Hx.
  - destruct Hl as [Hlen ->]. split_trace Hin.
    + segment Hin.
    + destruct (load_events_elem _ _ _ Hin) as [[x Hx]|(x & d & Hx)]; discriminate Hx.
    + discriminate Hin.
    + segment Hin. discriminate Hin.
    + finish_segment Hin; discriminate Hin.
Qed.

(** The exports that were attempted, in order. *)
Lemma ExportOne_exports ex prefix c x t o :
  ExportOne ex prefix c x t o ->
  omap export_of t = match o with Returned _ => [GetType x] | Thrown _ => omap export_of t end /\
  (omap export_of t = [] \/ omap export_of t = [GetType x]).
Proof.
  destruct 1 as [p r w w' Hp He|e w w' Hp Hg|out r w1 w2 w3 Hp Hg He]; cbn; auto.
  - destruct r; auto.
  - destruct r; auto.
Qed.

Lemma ExportLoop_exports exporters prefix c exports t o :
  ExportLoop exporters prefix c exports t o ->
  omap export_of t `prefix_of` map GetType exports /\
  (forall u, o = Returned u -> omap export_of t = map GetType exports).
Proof.
  induction 1 as [|x rest ex t e Hex Hone|x rest ex t t' o Hex Hone Hloop IH].
  - split; [reflexivity|]. reflexivity.
  - split; [|discriminate].
    destruct (ExportOne_exports _ _ _ _ _ _ Hone) as [_ [->| ->]]; cbn.
    + apply prefix_nil.
    + exists (map GetType rest). reflexivity.
  - destruct (ExportOne_exports _ _ _ _ _ _ Hone) as [Hx _].
    destruct IH as [IHp IHr]. rewrite omap_app, Hx. cbn. split.
    + apply prefix_cons, IHp.
    + intros u ->. rewrite (IHr u eq_refl). reflexivity.
Qed.

Lemma ExportTrace_exports options c t o :
  ExportTrace options c t o ->
  omap export_of t `prefix_of` map GetType (GetExports options) /\
  (forall u, o = Returned u -> omap export_of t = map GetType (GetExports options)).
Proof.
  destruct 1 as [e|tf e|tf html e|tf html cobertura e|tf html cobertura binary t o Hloop];
    try (split; [apply prefix_nil|discriminate]).
  rewrite omap_app. cbn. apply (ExportLoop_exports _ _ _ _ _ _ Hloop).
Qed.

(** The snapshots handed to the deserializer, in order. *)
Lemma load_events_deserialized paths ds :
  length ds = length paths ->
  omap deserialize_of (load_events paths ds) = expected_loads paths.
Proof.
  revert ds. induction paths as [|p rest IH]; intros [|d ds] Hl; try discriminate; cbn.
  - reflexivity.
  - unfold load_events in IH. rewrite IH by (cbn in Hl; congruence). reflexivity.
Qed.

Lemma LoadTrace_deserialized paths tl o :
  LoadTrace paths tl o ->
  omap deserialize_of tl `prefix_of` expected_loads paths /\
  (forall ds, o = Returned ds ->
     omap deserialize_of tl = expected_loads paths /\ loaded tl = ds /\
     length ds = length paths) /\
  (forall e, o = Thrown e ->
     exists pre p, tl = pre ++ [EvDeserialize p (errorMsg_of p) (Thrown e)] /\
       (length (loaded tl) < length paths)%nat).
Proof.
  destruct o as [ds|e]; cbn.
  - intros [Hlen ->]. rewrite (load_events_deserialized _ _ Hlen).
    split; [reflexivity|]. split; [|discriminate].
    intros ds' [= <-]. split; [reflexivity|]. split; [|exact Hlen].
    apply loaded_load_events, Hlen.
  - intros (done & p & rest & ds & -> & Hlen & ->).
    rewrite omap_app, (load_events_deserialized _ _ Hlen). cbn.
    split; [|split; [discriminate|]].
    + unfold expected_loads. rewrite map_app. cbn.
      exists (map (fun p0 => (p0, String.append "Cannot extract coverage data from "
                                   (path_string p0))) rest).
      rewrite <- app_assoc. reflexivity.
    + intros e' [= <-]. exists (load_events done ds ++ [load_log p]), p. split.
      * rewrite <- app_assoc. reflexivity.
      * unfold loaded. rewrite omap_app. cbn. rewrite app_nil_r.
        fold (loaded (load_events done ds)). rewrite (loaded_load_events _ _ Hlen).
        rewrite length_app. cbn. lia.
Qed.

Lemma omap_nil_elem {A B} (f : A -> option B) (t : list A) x :
  omap f t = [] -> x ∈ t -> f x = None.
Proof.
  induction t as [|a t IH]; intros Ho Hin; [inversion Hin|].
  cbn in Ho. destruct (f a) eqn:Hfa; [discriminate|].
  apply elem_of_cons in Hin as [->|Hin]; auto.
Qed.

(** The ways of [OpenCppCoverage::Run]. *)
Lemma MainTrace_thrown argv t e :
  MainTrace argv t (Thrown e) ->
  t = [EvParse argv (Thrown e)] \/ exists pre, t = pre ++ [EvDisplayWarnings (Thrown e)].
Proof.
  inversion 1 as [e'| |options t0 o rd Hr Ht Ho]; subst; [left; reflexivity|].
  right. destruct rd as [u|e']; [discriminate|]. cbn in Ho. injection Ho as ->.
  exists (EvParse argv (Returned (Some options)) :: t0 ++ caught o). cbn.
  rewrite <- app_assoc. reflexivity.
Qed.

Lemma paused_elem options rd ev :
  ev ∈ paused options rd ->
  IsPlugingModeEnabled options = true /\ (exists u, rd = Returned u) /\
  (ev = EvCout "Press any key to continue... " \/ ev = EvCinGet).
Proof.
  unfold paused, pause_events. destruct rd as [u|e]; [|intros Hin; inversion Hin].
  destruct (IsPlugingModeEnabled options); [|intros Hin; inversion Hin].
  rewrite !elem_of_cons, elem_of_nil. intros [->|[->|[]]]; eauto.
Qed.

Lemma caught_elem o ev :
  ev ∈ caught o -> exists e, o = Thrown e /\ ev = EvLog sev_error (catch_message e).
Proof.
  destruct o as [c|e]; cbn; [intros Hin; inversion Hin|].
  rewrite elem_of_cons, elem_of_nil. intros [->|[]]. eauto.
Qed.

Lemma MainTrace_displays argv t o options :
  MainTrace argv t o -> EvParse argv (Returned (Some options)) ∈ t ->
  exists rd, omap display_of t = [rd] /\
    (EvCinGet ∈ t <-> IsPlugingModeEnabled options = true /\ exists u, rd = Returned u).
Proof.
  inversion 1 as [e'| |options0 t0 o0 rd Hr Ht Ho]; subst; intros Hin.
  - split_trace Hin; discriminate Hin.
  - split_trace Hin; discriminate Hin.
  - assert (options0 = options) as ->.
    { split_trace Hin.
      + injection Hin as <-. reflexivity.
      + pose proof (RunTrace_run_events _ _ _ _ Hr Hin). discriminate.
      + apply caught_elem in Hin as (e & _ & Hx). discriminate Hx.
      + discriminate Hin.
      + apply paused_elem in Hin as (_ & _ & [Hx|Hx]); discriminate Hx. }
    exists rd. split.
    + cbn. rewrite !omap_app. cbn.
      rewrite (omap_none display_of t0), (omap_none display_of (caught o0)),
        (omap_none display_of (paused options rd)); [reflexivity|..].
      * intros x Hx. apply paused_elem in Hx as (_ & _ & [->| ->]); reflexivity.
      * intros x Hx. apply caught_elem in Hx as (e & _ & ->). reflexivity.
      * intros x Hx. pose proof (RunTrace_run_events _ _ _ _ Hr Hx) as Hk.
        destruct x; try reflexivity; discriminate Hk.
    + split.
      * intros Hc. split_trace Hc; try discriminate Hc.
        -- pose proof (RunTrace_run_events _ _ _ _ Hr Hc). discriminate.
        -- apply caught_elem in Hc as (e & _ & Hx). discriminate Hx.
        -- apply paused_elem in Hc as (Hp & Hu & _). auto.
      * intros [Hp [u ->]]. rewrite elem_of_cons, !elem_of_app, elem_of_cons.
        right; right; right; right. unfold paused, pause_events. rewrite Hp.
        apply list_elem_of_further, list_elem_of_here.
Qed.

Lemma MainTrace_errors argv t status :
  FailureExitCode <> 0 ->
  MainTrace argv t (Returned status) ->
  (status = 0 -> omap error_of t = []) /\
  (status <> 0 ->
     t = [EvParse argv (Returned None)] \/ exists msg, omap error_of t = [msg]).
Proof.
  intros Hnz. inversion 1 as [e'| |options t0 o rd Hr Ht Ho]; subst.
  - split; [contradiction|]. auto.
  - destruct rd as [u|e']; [|discriminate]. cbn in Ho. injection Ho as <-.
    assert (Hp : omap error_of (pause_events options) = []).
    { unfold pause_events. destruct (IsPlugingModeEnabled options); reflexivity. }
    cbn. rewrite !omap_app. cbn. rewrite Hp, (RunTrace_errors _ _ _ Hr).
    destruct o as [c|e]; cbn.
    + rewrite app_nil_r. unfold exit_log. destruct (decide (c = 0)); cbn.
      * split; [reflexivity|contradiction].
      * split; [contradiction|]. eauto.
    + split; [contradiction|]. eauto.
Qed.

Lemma MainTrace_exit_code argv t o s cd :
  MainTrace argv t o -> clean t -> EvRunCoverage s (Returned cd) ∈ t ->
  o = Returned (GetExitCode cd).
Proof.
  inversion 1 as [e'| |options t0 o0 rd Hr Ht Ho]; subst; intros Hc Hin.
  - split_trace Hin; discriminate Hin.
  - split_trace Hin; discriminate Hin.
  - unfold clean in Hc. rewrite Forall_cons, !Forall_app, Forall_cons in Hc.
    destruct Hc as (_ & Hc0 & _ & Hrd & _).
    destruct rd as [u|e']; [|discriminate Hrd].
    assert (Hin0 : EvRunCoverage s (Returned cd) ∈ t0).
    { split_trace Hin; try discriminate Hin; try exact Hin.
      - apply caught_elem in Hin as (e & _ & Hx). discriminate Hx.
      - apply paused_elem in Hin as (_ & _ & [Hx|Hx]); discriminate Hx. }
    destruct (RunTrace_clean _ _ _ Hr Hc0) as [code ->].
    destruct (RunTrace_launched _ _ _ _ _ Hr Hin0) as (tl & ds & tf & _ & _ & Hf).
    apply FinishTrace_returned in Hf as [-> _]. reflexivity.
Qed.

(** What the merger is called on. *)
Lemma FinishTrace_loaded options datas exitCode tf o :
  FinishTrace options datas exitCode tf o -> loaded tf = [].
Proof.
  intros Hf. apply omap_none. intros ev Hin.
  destruct (FinishTrace_elem _ _ _ _ _ _ Hf Hin)
    as [(rm & ->)|[(m & r & -> & _)|[He|(_ & _ & ->)]]]; try reflexivity.
  destruct ev; try discriminate He; reflexivity.
Qed.

Lemma RunTrace_merge_input options t o d rm :
  RunTrace options t o -> EvMerge d rm ∈ t ->
  exists l, d = loaded t ++ option_list l /\
    length (loaded t) = length (GetInputCoveragePaths options) /\
    launch_ok options l /\
    (forall cd, l = Some cd -> exists s, EvRunCoverage s (Returned cd) ∈ t).
Proof.
  inversion 1 as [e'|e'|tl e' Hl|tl ds si e' Hl Hs|tl ds l tf o' Hl Hk Hf];
    subst; intros Hin; split_trace Hin; finish_segment Hin; try discriminate Hin.
  injection Hin as -> _. exists l.
  assert (Hload : loaded (init_events options ++ tl ++ start_log options ::
                          launch_events options l ++ tf) = ds).
  { unfold loaded. rewrite !omap_app. cbn. rewrite omap_app.
    fold (loaded tl). fold (loaded tf). rewrite (FinishTrace_loaded _ _ _ _ _ Hf).
    destruct Hl as [Hlen ->]. rewrite (loaded_load_events _ _ Hlen).
    unfold launch_events. destruct (GetStartInfo options), l; cbn;
      rewrite ?app_nil_r; reflexivity. }
  rewrite Hload. split; [reflexivity|]. split; [apply Hl|]. split; [exact Hk|].
  intros cd ->. unfold launch_ok, launch_events in *.
  destruct (GetStartInfo options) as [si|]; [|contradiction].
  eexists. rewrite !elem_of_app, elem_of_cons, elem_of_app, elem_of_cons.
  right; right; right; left; left. reflexivity.
Qed.

Lemma ExportTrace_default_path options c t o ty prefix rp :
  ExportTrace options c t o -> EvGetDefaultPath ty prefix rp ∈ t ->
  prefix = GetDefaultPathPrefix options /\
  exists x, x ∈ GetExports options /\ GetType x = ty /\ GetOutputPath x = None.
Proof.
  destruct 1 as [e|tf e|tf html e|tf html cobertura e|tf html cobertura binary t o Hloop];
    rewrite ?elem_of_app, ?elem_of_cons, ?elem_of_nil;
    try (intuition discriminate).
  intros [Hin|Hin]; [intuition discriminate|].
  destruct (ExportLoop_elem _ _ _ _ _ _ _ Hloop Hin)
    as (x & ex & Hx & _ & [(r' & Hev & Hnone)|(out' & r' & Hev & _)]); [|discriminate].
  injection Hev as -> -> ->. eauto.
Qed.

End Facts.









(** * The claims *)

Section Claims.
Context `{Collaborators}.

(** C1, as the code has it.  In a run in which the runner returned the
    model [cd] of the target: if [Run] returns, it returns the exit code
    of [cd]; it returns whenever no collaborator throws, whatever that
    exit code is, and it fails only with the exception of the collaborator
    called last; a non-zero exit code is logged once, as the last event,
    with severity error; every other record [Run] logs has severity
    info, none has severity warning. *)
Theorem target_exit_code_returned_and_logged_as_error options w s cd :
  let r := Run options w in
  EvRunCoverage s (Returned cd) ∈ trace r ->
  (forall exitCode, outcome r = Returned exitCode -> exitCode = GetExitCode cd) /\
  (clean (trace r) -> outcome r = Returned (GetExitCode cd)) /\
  (forall e, outcome r = Thrown e ->
     exists pre ev, trace r = pre ++ [ev] /\ thrown ev = Some e) /\
  (outcome r = Returned (GetExitCode cd) -> GetExitCode cd <> 0 ->
     exists pre, trace r = pre ++
       [EvLog sev_error [Text "Your program stop with error code: "; Num (GetExitCode cd)]]) /\
  (forall severity msg, EvLog severity msg ∈ trace r ->
     severity = sev_info \/
     (severity = sev_error /\ GetExitCode cd <> 0 /\
      msg = [Text "Your program stop with error code: "; Num (GetExitCode cd)])).
Proof.
  intros r Hin. subst r. pose proof (Run_sound options w) as Hr.
  destruct (RunTrace_launched _ _ _ _ _ Hr Hin) as (tl & ds & tf & Hl & Ht & Hf).
  assert (Hret : forall exitCode,
             outcome (Run options w) = Returned exitCode -> exitCode = GetExitCode cd).
  { intros code Ho. rewrite Ho in Hf.
    apply FinishTrace_returned in Hf. tauto. }
  split; [exact Hret|]. split; [|split; [|split]].
  - intros Hc. destruct (RunTrace_clean _ _ _ Hr Hc) as [code Ho].
    rewrite Ho. f_equal. apply Hret, Ho.
  - intros e Ho. rewrite Ho in Hr. apply (RunTrace_thrown _ _ _ Hr).
  - intros Ho Hnz. rewrite Ho in Hf.
    apply FinishTrace_returned in Hf. destruct Hf as (_ & m & m' & ta & te & -> & _ & _).
    rewrite Ht. unfold exit_log. destruct (decide (GetExitCode cd = 0)); [contradiction|].
    eexists (init_events options ++ tl ++ start_log options ::
             EvRunCoverage s (Returned cd) :: EvMerge (ds ++ [cd]) (Returned m) :: ta ++ te).
    repeat (rewrite <- ?app_assoc; cbn [app]). reflexivity.
  - intros severity msg Hlog.
    destruct (RunTrace_logs _ _ _ _ _ Hr Hlog)
      as [->|(-> & code & Hnz & Ho & ->)]; [auto|right].
    rewrite (Hret code Ho) in *. auto.
Qed.

(** C2.  The settings of every call of the coverage runner carry, as the
    maximum of unmatched paths before the warnings are aggregated, the
    largest [size_t] exactly when the log level is [Verbose], and 30 for
    every other log level. *)
Theorem max_unmatch_paths_unbounded_iff_verbose options w s r :
  EvRunCoverage s r ∈ trace (Run options w) ->
  (rcs_maxUnmatchPathsForWarning s = size_t_max <-> GetLogLevel options = Verbose) /\
  (GetLogLevel options <> Verbose -> rcs_maxUnmatchPathsForWarning s = 30).
Proof.
  intros Hin.
  destruct (RunTrace_launch _ _ _ _ _ (Run_sound options w) Hin) as (si & _ & ->).
  cbn. unfold maxUnmatchPathsForWarning.
  pose proof size_t_max_neq_30 as Hne.
  destruct (decide (GetLogLevel options = Verbose)) as [Hv|Hv].
  - split; [tauto|contradiction].
  - split; [|reflexivity]. split; [intros Heq; congruence|contradiction].
Qed.

(** C3.  When the parser returns no options, [OpenCppCoverage::Run] does
    nothing but the call of the parser: no logger is set up, no snapshot
    is read, no target is launched, nothing is merged or exported, no
    warning is displayed and no pause takes place; it returns
    [FailureExitCode]. *)
Theorem parse_failure_aborts_run argv w w' :
  Parse argv w = (w', Returned None) ->
  OpenCppCoverage_Run argv w =
    mkResult [EvParse argv (Returned None)] w' (Returned FailureExitCode).
Proof.
  intros Hp. unfold OpenCppCoverage_Run.
  rewrite bind_unfold, call_unfold, Hp. reflexivity.
Qed.

(** C4.  When the options are valid and the inner [Run] throws [e], the
    exception is caught: an error-level record is logged right after what
    [Run] did, the warnings are displayed after it, and, [DisplayWarnings]
    returning, the status is [FailureExitCode], which is not zero.  (An
    exception of [DisplayWarnings] itself is outside the [try] block.) *)
Theorem exception_is_logged_and_warnings_displayed argv w w1 options t w2 e w3 rd :
  FailureExitCode <> 0 ->
  Parse argv w = (w1, Returned (Some options)) ->
  Run options w1 = mkResult t w2 (Thrown e) ->
  DisplayWarnings w2 = (w3, rd) ->
  let r := OpenCppCoverage_Run argv w in
  trace r = EvParse argv (Returned (Some options)) :: t ++
            [EvLog sev_error (catch_message e); EvDisplayWarnings rd] ++
            match rd with Returned _ => pause_events options | Thrown _ => [] end /\
  match rd with
  | Returned _ => exists status, outcome r = Returned status /\
                                 status = FailureExitCode /\ status <> 0
  | Thrown e' => outcome r = Thrown e'
  end.
Proof.
  intros Hnz Hp Hr Hd. unfold OpenCppCoverage_Run. cbn zeta.
  rewrite bind_unfold, call_unfold, Hp. cbn [fst snd outcome trace world prepend].
  rewrite bind_unfold. unfold try_catch. rewrite Hr.
  cbn [outcome trace world prepend].
  assert (Hlog : forall w0,
    ((match e with
      | StdException what => LOG_ERROR [Text "Error: "; Text what]
      | UnknownException => LOG_ERROR [Text "Unkown Error"]
      end ;; ret FailureExitCode) w0)
    = mkResult [EvLog sev_error (catch_message e)] w0 (Returned FailureExitCode)).
  { intros w0. destruct e; reflexivity. }
  rewrite Hlog. cbn [outcome trace world prepend].
  rewrite bind_unfold, call_unfold, Hd. cbn [fst snd outcome trace world prepend].
  split.
  - destruct rd as [[]|e']; cbn [outcome trace world prepend].
    + rewrite bind_unfold. unfold pause_events.
      destruct (IsPlugingModeEnabled options); cbn; rewrite <- app_assoc; reflexivity.
    + cbn. rewrite <- app_assoc. reflexivity.
  - destruct rd as [[]|e']; cbn [outcome trace world prepend]; [|reflexivity].
    exists FailureExitCode. rewrite bind_unfold.
    destruct (IsPlugingModeEnabled options); cbn; auto.
Qed.

(** C5.  The model [cd] that the runner returns, whatever its exit code,
    is merged next, after the models of the input snapshots; and when no
    collaborator throws, the merged (and, if asked, aggregated) model is
    exported by every configured export before the exit code is looked
    at. *)
Theorem coverage_merged_and_exported_whatever_exit_code options w s cd :
  let r := Run options w in
  EvRunCoverage s (Returned cd) ∈ trace r ->
  exists pre rm post,
    trace r = pre ++ EvRunCoverage s (Returned cd) ::
                     EvMerge (loaded pre ++ [cd]) rm :: post /\
    (clean (trace r) ->
       exists m m' ta te,
         rm = Returned m /\ aggregated options m m' ta /\
         post = ta ++ te ++ exit_log (GetExitCode cd) /\
         (forall ev, ev ∈ te -> is_export_event ev = true) /\
         (forall x, x ∈ GetExports options ->
            exists out, EvExport (GetType x) m' out (Returned tt) ∈ te) /\
         outcome r = Returned (GetExitCode cd)).
Proof.
  intros r Hin. subst r. pose proof (Run_sound options w) as Hr.
  destruct (RunTrace_launched _ _ _ _ _ Hr Hin) as (tl & ds & tf & Hl & Ht & Hf).
  destruct (FinishTrace_merged _ _ _ _ _ Hf) as (rm & post & ->).
  exists (init_events options ++ tl ++ [start_log options]), rm, post.
  rewrite (loaded_before_launch _ _ _ Hl). split.
  - rewrite Ht. repeat (rewrite <- ?app_assoc; cbn [app]). reflexivity.
  - intros Hc. destruct (RunTrace_clean _ _ _ Hr Hc) as [code Ho].
    rewrite Ho in Hf. apply FinishTrace_returned in Hf.
    destruct Hf as (-> & m & m' & ta & te & Heq & Ha & He).
    injection Heq as -> ->.
    destruct (ExportTrace_returned _ _ _ He) as [_ Hall].
    exists m, m', ta, te. repeat split; auto.
    + intros ev. apply (ExportTrace_export_events _ _ _ _ _ He).
    + intros x Hx. destruct (Hall x Hx) as (ex & out & _ & Hout & _). eauto.
Qed.


(** C7.  On the modelled merger: the merge of a list of run results does
    not depend on the order of the list, line by line; merging two results
    is commutative and associative, merging a result with itself gives it
    back; a line is hit in the merge exactly when it is hit in one of the
    inputs, and present in the merge exactly when one of the inputs has
    it. *)
Theorem merge_commutative_associative_idempotent
    (l1 l2 : list CoverageModel.Modules) (a b c : CoverageModel.Modules) :
  l1 ≡ₚ l2 ->
  (forall m f n, CoverageModel.lineHit (CoverageModel.Merge l1) m f n =
                 CoverageModel.lineHit (CoverageModel.Merge l2) m f n) /\
  CoverageModel.Merge [a; b] = CoverageModel.Merge [b; a] /\
  CoverageModel.Merge [a; CoverageModel.Merge [b; c]] =
    CoverageModel.Merge [CoverageModel.Merge [a; b]; c] /\
  CoverageModel.Merge [a; a] = a /\
  (forall m f n,
     CoverageModel.lineHit (CoverageModel.Merge l1) m f n = Some true <->
     exists d, d ∈ l1 /\ CoverageModel.lineHit d m f n = Some true) /\
  (forall m f n,
     is_Some (CoverageModel.lineHit (CoverageModel.Merge l1) m f n) <->
     exists d, d ∈ l1 /\ is_Some (CoverageModel.lineHit d m f n)).
Proof.
  intros Hp. split; [|split; [|split; [|split; [|split]]]].
  - intros m f n. rewrite (MergerFacts.Merge_permutation l1 l2 Hp). reflexivity.
  - apply MergerFacts.Merge_permutation. constructor.
  - unfold CoverageModel.Merge. cbn.
    rewrite !MergerFacts.mergeModules_empty_r.
    apply MergerFacts.mergeModules_assoc.
  - unfold CoverageModel.Merge. cbn.
    rewrite MergerFacts.mergeModules_empty_r.
    apply MergerFacts.mergeModules_idemp.
  - intros m f n. apply MergerFacts.lineHit_Merge_true.
  - intros m f n. apply MergerFacts.lineHit_Merge_is_Some.
Qed.

(** C9.  With no target configured, [Run] never calls the coverage runner
    and, if it returns, returns 0; when no collaborator throws it reads
    every input snapshot in order, merges exactly the models read,
    exports the merged (and, if asked, aggregated) model by every
    configured export, and returns 0. *)
Theorem merge_only_mode options w :
  GetStartInfo options = None ->
  let r := Run options w in
  (forall s rc, EvRunCoverage s rc ∉ trace r) /\
  (forall exitCode, outcome r = Returned exitCode -> exitCode = 0) /\
  (clean (trace r) ->
     exists ds m m' ta te,
       length ds = length (GetInputCoveragePaths options) /\
       trace r = init_events options ++
                 load_events (GetInputCoveragePaths options) ds ++
                 start_log options :: EvMerge ds (Returned m) :: ta ++ te /\
       aggregated options m m' ta /\
       (forall ev, ev ∈ te -> is_export_event ev = true) /\
       (forall x, x ∈ GetExports options ->
          exists out, EvExport (GetType x) m' out (Returned tt) ∈ te) /\
       outcome r = Returned 0).
Proof.
  intros Hs r. subst r. pose proof (Run_sound options w) as Hr.
  destruct (RunTrace_merge_only _ _ _ Hs Hr) as [Hno Hcases].
  split; [exact Hno|]. split.
  - intros code Ho. destruct Hcases as [(e & He & _)|(tl & ds & tf & Hl & Ht & Hf)].
    + congruence.
    + rewrite Ho in Hf. apply FinishTrace_returned in Hf. tauto.
  - intros Hc. destruct (RunTrace_clean _ _ _ Hr Hc) as [code Ho].
    destruct Hcases as [(e & He & _)|(tl & ds & tf & Hl & Ht & Hf)]; [congruence|].
    rewrite Ho in Hf. apply FinishTrace_returned in Hf.
    destruct Hf as (-> & m & m' & ta & te & -> & Ha & He).
    destruct (ExportTrace_returned _ _ _ He) as [_ Hall].
    destruct Hl as [Hlen ->].
    exists ds, m, m', ta, te. repeat split; auto.
    + rewrite Ht. cbn. rewrite app_nil_r. reflexivity.
    + intros ev. apply (ExportTrace_export_events _ _ _ _ _ He).
    + intros x Hx. destruct (Hall x Hx) as (ex & out & _ & Hout & _). eauto.
Qed.

(** C10.  The prefix of the default paths is the file name of the target
    without its extension, or [CoverageOutput] when there is no target.
    Every export that [Export] performs writes the given model, for one
    of the configured exports, with the exporter constructed for its
    type, to the configured output path if there is one and otherwise to
    the path that this exporter's [GetDefaultPath] returned for the
    prefix; and when [Export] returns, every configured export was
    performed so. *)
Theorem export_output_path options coverage w :
  let r := Export options coverage w in
  let prefix := GetDefaultPathPrefix options in
  prefix = match GetStartInfo options with
           | Some startInfo =>
               path_wstring (replace_extension (filename (GetPath startInfo)) "")
           | None => "CoverageOutput"
           end /\
  (forall ty c out ro, EvExport ty c out ro ∈ trace r ->
     c = coverage /\
     exists x ex, x ∈ GetExports options /\ GetType x = ty /\
       EvNewExporter ty (Returned ex) ∈ trace r /\
       match GetOutputPath x with
       | Some p => out = p
       | None => EvGetDefaultPath ty prefix (Returned out) ∈ trace r /\
                 exists w1 w2, exporter_GetDefaultPath ex prefix w1 = (w2, Returned out)
       end) /\
  (outcome r = Returned tt ->
   forall x, x ∈ GetExports options ->
     exists ex out,
       EvNewExporter (GetType x) (Returned ex) ∈ trace r /\
       EvExport (GetType x) coverage out (Returned tt) ∈ trace r /\
       match GetOutputPath x with
       | Some p => out = p
       | None => EvGetDefaultPath (GetType x) prefix (Returned out) ∈ trace r /\
                 exists w1 w2, exporter_GetDefaultPath ex prefix w1 = (w2, Returned out)
       end).
Proof.
  intros r prefix. subst r prefix.
  pose proof (Export_sound options coverage w) as He.
  split; [reflexivity|]. split.
  - intros ty c out ro Hin.
    destruct (ExportTrace_elem _ _ _ _ _ _ _ _ He Hin) as (-> & x & ex & Hx & <- & Hd & Hp).
    split; [reflexivity|]. exists x, ex. auto.
  - intros Ho x Hx. rewrite Ho in He.
    destruct (ExportTrace_returned _ _ _ He) as [_ Hall].
    destruct (Hall x Hx) as (ex & out & Hd & Hin & Hp). exists ex, out. auto.
Qed.

End Claims.

(** * Further properties of the orchestration *)

Section Further.
Context `{Collaborators}.

(** X1.  [Run] sets up the logger before anything else: its first call
    opens [LastCoverageResults.log], its second sets the minimal severity
    to debug, error or info for the log levels [Verbose], [Quiet] and
    [Normal]; if either call throws, [Run] ends there with that
    exception. *)
Theorem logger_is_set_up_first options w :
  let r := Run options w in
  let severity :=
    match GetLogLevel options with
    | Verbose => sev_debug
    | Quiet => sev_error
    | Normal => sev_info
    end in
  (exists e, trace r = [EvInitConsoleAndFileLog "LastCoverageResults.log" (Thrown e)] /\
             outcome r = Thrown e) \/
  (exists e, trace r = [EvInitConsoleAndFileLog "LastCoverageResults.log" (Returned tt);
                        EvSetLoggerMinSeverity severity (Thrown e)] /\
             outcome r = Thrown e) \/
  (exists rest, trace r = EvInitConsoleAndFileLog "LastCoverageResults.log" (Returned tt) ::
                          EvSetLoggerMinSeverity severity (Returned tt) :: rest).
Proof.
  cbv zeta. fold (min_severity options).
  destruct (Run_sound options w) as [e'|e'|tl e' Hl|tl ds si e' Hl Hs|tl ds l tf o' Hl Hk Hf];
    cbn; eauto 6.
Qed.

(** X2.  A snapshot that cannot be read ends the run: the exception of the
    deserializer is the outcome of [Run], the failed call is its last
    event, and neither the runner nor the merger is called nor anything
    exported, whatever the snapshots read before it. *)
Theorem unreadable_snapshot_aborts_run options w p errorMsg e :
  let r := Run options w in
  EvDeserialize p errorMsg (Thrown e) ∈ trace r ->
  outcome r = Thrown e /\
  (exists pre, trace r = pre ++ [EvDeserialize p errorMsg (Thrown e)]) /\
  (forall s rc, EvRunCoverage s rc ∉ trace r) /\
  (forall d rm, EvMerge d rm ∉ trace r) /\
  (forall ev, ev ∈ trace r -> is_export_event ev = false).
Proof.
  intros r Hin. subst r.
  destruct (RunTrace_unreadable _ _ _ _ _ _ (Run_sound options w) Hin)
    as (Ho & Hlast & Hl & Hm & Hexp).
  repeat split; auto.
  - intros s rc Hx. pose proof (omap_nil_elem launch_of _ _ Hl Hx). discriminate.
  - intros d rm Hx. pose proof (omap_nil_elem merge_of _ _ Hm Hx). discriminate.
Qed.

(** X3.  [LoadInputCoverageDatas] hands the input paths to the deserializer
    one by one in the order of the options, each with the message
    [Cannot extract coverage data from <path>], and stops at the first
    path that fails; when it returns, it returns one model per path, in
    that order; when it throws, the failed call is its last event and
    fewer models than paths were read. *)
Theorem snapshots_loaded_in_order options w :
  let r := LoadInputCoverageDatas options w in
  let paths := GetInputCoveragePaths options in
  omap deserialize_of (trace r) `prefix_of` expected_loads paths /\
  (forall ds, outcome r = Returned ds ->
     omap deserialize_of (trace r) = expected_loads paths /\
     loaded (trace r) = ds /\ length ds = length paths) /\
  (forall e, outcome r = Thrown e ->
     exists pre p, trace r = pre ++ [EvDeserialize p (errorMsg_of p) (Thrown e)] /\
       (length (loaded (trace r)) < length paths)%nat).
Proof.
  cbv zeta. unfold LoadInputCoverageDatas.
  destruct (LoadInputCoverageDatas_loop_spec [] (GetInputCoveragePaths options) w)
    as (o & Hl & Ho). cbv zeta in Hl, Ho.
  destruct (LoadTrace_deserialized _ _ _ Hl) as (Hp & Hr & Ht).
  split; [exact Hp|]. rewrite Ho. split.
  - intros ds Hds. destruct o as [ds'|e]; [|discriminate].
    injection Hds as <-. apply (Hr ds' eq_refl).
  - intros e He. destruct o as [ds'|e']; [discriminate|].
    injection He as ->. apply (Ht e eq_refl).
Qed.

(** X4.  [Export] never fails on the lookup of an exporter: for each of
    the three export kinds one is registered, and an exception of [Export]
    is always the exception of the collaborator it called last (the
    template folder, a constructor, [GetDefaultPath] or [Export] of an
    exporter). *)
Theorem export_fails_only_with_collaborator options coverage w e :
  let r := Export options coverage w in
  outcome r = Thrown e ->
  exists pre ev, trace r = pre ++ [ev] /\ thrown ev = Some e /\ is_export_event ev = true.
Proof.
  intros r Ho. subst r. pose proof (Export_sound options coverage w) as He.
  rewrite Ho in He.
  destruct (ExportTrace_thrown _ _ _ _ He) as (pre & ev & Ht & Hev).
  exists pre, ev. split; [exact Ht|]. split; [exact Hev|].
  apply (ExportTrace_export_events _ _ _ _ _ He). rewrite Ht.
  apply elem_of_app. right. left.
Qed.

(** X5.  [Export] builds all three exporters before the first export,
    whatever the exports asked for: the template folder, then the Html,
    Cobertura and Binary exporters; if one of these calls throws, [Export]
    ends there and nothing is exported; with no export configured it
    returns after the four calls. *)
Theorem exporters_constructed_before_any_export options coverage w :
  let r := Export options coverage w in
  (exists e, trace r = [EvGetTemplateFolder (Thrown e)] /\ outcome r = Thrown e) \/
  (exists tf e, trace r = [EvGetTemplateFolder (Returned tf); EvNewExporter Html (Thrown e)] /\
                outcome r = Thrown e) \/
  (exists tf html e,
     trace r = [EvGetTemplateFolder (Returned tf); EvNewExporter Html (Returned html);
                EvNewExporter Cobertura (Thrown e)] /\ outcome r = Thrown e) \/
  (exists tf html cobertura e,
     trace r = [EvGetTemplateFolder (Returned tf); EvNewExporter Html (Returned html);
                EvNewExporter Cobertura (Returned cobertura);
                EvNewExporter Binary (Thrown e)] /\ outcome r = Thrown e) \/
  (exists tf html cobertura binary rest,
     trace r = [EvGetTemplateFolder (Returned tf); EvNewExporter Html (Returned html);
                EvNewExporter Cobertura (Returned cobertura);
                EvNewExporter Binary (Returned binary)] ++ rest /\
     (forall ev, ev ∈ rest ->
        (exists ty prefix rp, ev = EvGetDefaultPath ty prefix rp) \/
        (exists ty c out ro, ev = EvExport ty c out ro)) /\
     (GetExports options = [] -> rest = [] /\ outcome r = Returned tt)).
Proof.
  cbv zeta.
  destruct (Export_sound options coverage w)
    as [e|tf e|tf html e|tf html cobertura e|tf html cobertura binary t o Hloop]; eauto 10.
  right; right; right; right. exists tf, html, cobertura, binary, t.
  split; [reflexivity|]. split.
  - intros ev Hin.
    destruct (ExportLoop_elem _ _ _ _ _ _ _ Hloop Hin)
      as (x & ex & _ & _ & [(rp & -> & _)|(out & ro & -> & _)]); eauto 6.
  - intros Hnil. rewrite Hnil in Hloop. inversion Hloop. auto.
Qed.

(** X6.  [Export] performs the exports in the order of the options and
    stops at the first that throws: the kinds of the exports attempted are
    a prefix of the kinds configured, and all of them, duplicates
    included, when [Export] returns. *)
Theorem exports_in_configured_order options coverage w :
  let r := Export options coverage w in
  omap export_of (trace r) `prefix_of` map GetType (GetExports options) /\
  (outcome r = Returned tt ->
   omap export_of (trace r) = map GetType (GetExports options)).
Proof.
  cbv zeta.
  destruct (ExportTrace_exports _ _ _ _ (Export_sound options coverage w)) as [Hp Hr].
  split; [exact Hp|]. intros Ho. apply (Hr tt Ho).
Qed.

(** X7.  In one call of [Run] the coverage runner is called at most once,
    and not at all without a target, and the merger at most once; when
    [Run] returns, the merger was called exactly once, and the runner
    exactly once if a target is configured. *)
Theorem runner_and_merger_called_at_most_once options w :
  let r := Run options w in
  (length (omap launch_of (trace r)) <= 1)%nat /\
  (length (omap merge_of (trace r)) <= 1)%nat /\
  (GetStartInfo options = None -> omap launch_of (trace r) = []) /\
  (forall exitCode, outcome r = Returned exitCode ->
     length (omap merge_of (trace r)) = 1%nat /\
     (is_Some (GetStartInfo options) -> length (omap launch_of (trace r)) = 1%nat)).
Proof. cbv zeta. apply RunTrace_calls, Run_sound. Qed.

(** X8.  The settings of every call of the runner are those of the
    options: the configured target, the module and source patterns, the
    diff settings, the excluded line expressions, the path substitutions
    and the three modes (cover children, continue after a C++ exception,
    optimized build support), each under its own name. *)
Theorem runner_settings_carry_options options w s rc :
  EvRunCoverage s rc ∈ trace (Run options w) ->
  GetStartInfo options = Some (rcs_startInfo s) /\
  cfs_modulePatterns (rcs_coverageFilterSettings s) = GetModulePatterns options /\
  cfs_sourcePatterns (rcs_coverageFilterSettings s) = GetSourcePatterns options /\
  rcs_unifiedDiffSettings s = GetUnifiedDiffSettingsCollection options /\
  rcs_excludedLineRegexes s = GetExcludedLineRegexes options /\
  rcs_substitutePdbSourcePaths s = GetSubstitutePdbSourcePaths options /\
  rcs_coverChildren s = IsCoverChildrenModeEnabled options /\
  rcs_continueAfterCppException s = IsContinueAfterCppExceptionModeEnabled options /\
  rcs_optimizedBuildSupport s = IsOptimizedBuildSupportEnabled options.
Proof.
  intros Hin.
  destruct (RunTrace_launch _ _ _ _ _ (Run_sound options w) Hin) as (si & Hs & ->).
  cbn. repeat split; auto.
Qed.

(** X9.  No exception of the pipeline escapes [OpenCppCoverage::Run]: it
    throws only when the parser throws, which is then all it did, or when
    [DisplayWarnings] throws, which is then the last thing it did. *)
Theorem pipeline_exceptions_never_escape argv w e :
  let r := OpenCppCoverage_Run argv w in
  outcome r = Thrown e ->
  trace r = [EvParse argv (Thrown e)] \/
  exists pre, trace r = pre ++ [EvDisplayWarnings (Thrown e)].
Proof.
  intros r Ho. subst r. pose proof (Main_sound argv w) as Hm.
  rewrite Ho in Hm. apply (MainTrace_thrown _ _ _ Hm).
Qed.

(** X10.  Whenever the parser returned options, [DisplayWarnings] is called
    exactly once, however [Run] ended; and the pause (the read from the
    standard input) takes place exactly when the plugin mode is enabled and
    [DisplayWarnings] returned. *)
Theorem warnings_displayed_once_when_options_parsed argv w options :
  let r := OpenCppCoverage_Run argv w in
  EvParse argv (Returned (Some options)) ∈ trace r ->
  exists rd, omap display_of (trace r) = [rd] /\
    (EvCinGet ∈ trace r <->
     IsPlugingModeEnabled options = true /\ exists u, rd = Returned u).
Proof.
  intros r Hin. subst r. apply (MainTrace_displays _ _ _ _ (Main_sound argv w) Hin).
Qed.

(** X11.  With a non-zero [FailureExitCode], the status tells whether an
    error was logged: a call of [OpenCppCoverage::Run] that returns 0 has
    logged nothing at error level, and one that returns a non-zero status
    either had no options or has logged exactly one record at error
    level. *)
Theorem error_logged_iff_status_not_zero argv w status :
  let r := OpenCppCoverage_Run argv w in
  FailureExitCode <> 0 ->
  outcome r = Returned status ->
  (status = 0 -> omap error_of (trace r) = []) /\
  (status <> 0 ->
     trace r = [EvParse argv (Returned None)] \/
     exists msg, omap error_of (trace r) = [msg]).
Proof.
  intros r Hnz Ho. subst r. pose proof (Main_sound argv w) as Hm.
  rewrite Ho in Hm. apply (MainTrace_errors _ _ _ Hnz Hm).
Qed.

(** X12.  End to end: when no collaborator throws in a call of
    [OpenCppCoverage::Run] in which the runner returned the model [cd],
    the status returned is the exit code of [cd]. *)
Theorem status_is_target_exit_code argv w s cd :
  let r := OpenCppCoverage_Run argv w in
  clean (trace r) ->
  EvRunCoverage s (Returned cd) ∈ trace r ->
  outcome r = Returned (GetExitCode cd).
Proof.
  intros r Hc Hin. subst r.
  apply (MainTrace_exit_code _ _ _ _ _ (Main_sound argv w) Hc Hin).
Qed.

(** X13.  The merger is called on the models of the input snapshots, one
    per path and in their order, followed by the model of the run exactly
    when a target is configured; with no target and no input it is called
    on the empty list. *)
Theorem merger_input options w d rm :
  let r := Run options w in
  EvMerge d rm ∈ trace r ->
  exists l, d = loaded (trace r) ++ option_list l /\
    length (loaded (trace r)) = length (GetInputCoveragePaths options) /\
    (is_Some l <-> is_Some (GetStartInfo options)) /\
    (forall cd, l = Some cd -> exists s, EvRunCoverage s (Returned cd) ∈ trace r).
Proof.
  intros r Hin. subst r.
  destruct (RunTrace_merge_input _ _ _ _ _ (Run_sound options w) Hin)
    as (l & Hd & Hlen & Hk & Hcd).
  exists l. split; [exact Hd|]. split; [exact Hlen|]. split; [|exact Hcd].
  unfold launch_ok in Hk.
  destruct (GetStartInfo options), l; try contradiction; split; intros [x Hx];
    try discriminate; eauto.
Qed.

(** X14.  An exporter is asked for its default path only for an export
    configured without an output path, and always with the prefix of
    [GetDefaultPathPrefix]: when every export names its output path, no
    default path is computed. *)
Theorem default_path_only_without_output_path options coverage w ty prefix rp :
  EvGetDefaultPath ty prefix rp ∈ trace (Export options coverage w) ->
  prefix = GetDefaultPathPrefix options /\
  exists x, x ∈ GetExports options /\ GetType x = ty /\ GetOutputPath x = None.
Proof.
  apply (ExportTrace_default_path _ _ _ _ _ _ _ (Export_sound options coverage w)).
Qed.

End Further.


(** * The claims on the bench *)

Import Bench.

Ltac elem_of_trace :=
  repeat first [apply list_elem_of_here | apply list_elem_of_further].

Ltac clean_trace := repeat constructor.

Example GetDefaultPathPrefix_of_target :
  GetDefaultPathPrefix exits_with_3 = "MyApp" /\ GetDefaultPathPrefix merge_only = "CoverageOutput".
Proof. split; reflexivity. Qed.

(** The target's exit code comes back, the export went to the default path
    of the binary exporter. *)
Example Run_exits_with_3 :
  outcome (Run exits_with_3 0%nat) = Returned 3 /\
  EvExport Binary (mkSnapshot ["a.cov"; "C:\Dev\MyApp.exe"] 0) "MyApp.cov" (Returned tt)
    ∈ trace (Run exits_with_3 0%nat).
Proof. split; [reflexivity|elem_of_trace]. Qed.

(** A snapshot that cannot be read ends the run: nothing is merged, the
    exception is logged and the status is [FailureExitCode]. *)
Example OpenCppCoverage_Run_corrupt_snapshot :
  let r := OpenCppCoverage_Run ["--input_coverage"; "corrupt.cov"] 0%nat in
  outcome r = Returned FailureExitCode /\
  EvLog sev_error [Text "Error: "; Text "Cannot extract coverage data from corrupt.cov"]
    ∈ trace r /\
  EvDisplayWarnings (Returned tt) ∈ trace r.
Proof. cbv zeta. split; [reflexivity|]. split; elem_of_trace. Qed.

(** The aggregation on two modules that share [f.cpp]: both are found
    under the entry of [f.cpp], line 10 hit for [a.dll] and not hit for
    [b.dll] as before, and hit in the aggregate; [g.cpp] has the entry of
    [b.dll] only. *)
Example MergeFileCoverage_shared_file :
  let d := CoverageModel.Merge [run_a; run_b] in
  let v := CoverageModel.MergeFileCoverage d in
  CoverageModel.lineHit d "a.dll" "f.cpp" 10 = Some true /\
  CoverageModel.lineHit d "b.dll" "f.cpp" 10 = Some false /\
  CoverageModel.viewLineHit v "f.cpp" "a.dll" 10 = Some true /\
  CoverageModel.viewLineHit v "f.cpp" "b.dll" 10 = Some false /\
  CoverageModel.viewHit v "f.cpp" 10 = Some true /\
  CoverageModel.viewHit v "f.cpp" 12 = Some false /\
  CoverageModel.viewLines v "g.cpp" "a.dll" = None /\
  CoverageModel.viewHit v "g.cpp" 1 = Some true /\
  dom v = {["f.cpp"; "g.cpp"]}.
Proof. cbv zeta. repeat split; vm_compute; reflexivity. Qed.

(** C1, as stated, fails: the target ends with exit code 3, [Run] returns 3
    and logs the exit code with severity error; no record of severity
    warning is logged. *)
Lemma exit_code_is_not_logged_as_warning :
  let r := Run exits_with_3 0%nat in
  outcome r = Returned 3 /\
  EvLog sev_error [Text "Your program stop with error code: "; Num 3] ∈ trace r /\
  ~ exists msg, EvLog sev_warning msg ∈ trace r.
Proof.
  cbv zeta. split; [reflexivity|]. split; [elem_of_trace|].
  intros [msg Hin].
  repeat (apply elem_of_cons in Hin as [Hin|Hin]; [discriminate Hin|]).
  inversion Hin.
Qed.

Lemma target_exit_code_returned_and_logged_as_error_witness :
  EvRunCoverage (runCoverageSettings exits_with_3 (app_exe 3)) (Returned model_of_3)
    ∈ trace (Run exits_with_3 0%nat) /\
  outcome (Run exits_with_3 0%nat) = Returned 3.
Proof.
  assert (Hin : EvRunCoverage (runCoverageSettings exits_with_3 (app_exe 3))
                  (Returned model_of_3) ∈ trace (Run exits_with_3 0%nat))
    by elem_of_trace.
  split; [exact Hin|].
  pose proof (target_exit_code_returned_and_logged_as_error _ _ _ _ Hin) as Hc.
  cbv zeta in Hc. destruct Hc as (_ & Hclean & _).
  apply Hclean. clean_trace.
Defined.

Lemma max_unmatch_paths_unbounded_iff_verbose_witness :
  EvRunCoverage (runCoverageSettings exits_with_3 (app_exe 3)) (Returned model_of_3)
    ∈ trace (Run exits_with_3 0%nat) /\
  rcs_maxUnmatchPathsForWarning (runCoverageSettings exits_with_3 (app_exe 3)) = 30.
Proof.
  assert (Hin : EvRunCoverage (runCoverageSettings exits_with_3 (app_exe 3))
                  (Returned model_of_3) ∈ trace (Run exits_with_3 0%nat))
    by elem_of_trace.
  split; [exact Hin|].
  destruct (max_unmatch_paths_unbounded_iff_verbose _ _ _ _ Hin) as [_ H30].
  apply H30. discriminate.
Defined.

Lemma parse_failure_aborts_run_witness :
  Parse ["--help"] 0%nat = (1%nat, Returned None) /\
  OpenCppCoverage_Run ["--help"] 0%nat =
    mkResult [EvParse ["--help"] (Returned None)] 1%nat (Returned FailureExitCode).
Proof.
  split; [reflexivity|].
  apply parse_failure_aborts_run. reflexivity.
Defined.

Lemma exception_is_logged_and_warnings_displayed_witness :
  (FailureExitCode <> 0 /\
   Parse unwritable_argv 0%nat = (1%nat, Returned (Some unwritable)) /\
   Run unwritable 1%nat =
     mkResult (trace (Run unwritable 1%nat)) 10%nat (Thrown (StdException "Cannot write")) /\
   DisplayWarnings 10%nat = (11%nat, Returned tt)) /\
  exists status, outcome (OpenCppCoverage_Run unwritable_argv 0%nat) = Returned status /\
                 status = FailureExitCode /\ status <> 0.
Proof.
  assert (Hnz : FailureExitCode <> 0) by discriminate.
  assert (Hp : Parse unwritable_argv 0%nat = (1%nat, Returned (Some unwritable)))
    by reflexivity.
  assert (Hr : Run unwritable 1%nat =
               mkResult (trace (Run unwritable 1%nat)) 10%nat
                        (Thrown (StdException "Cannot write")))
    by reflexivity.
  assert (Hd : DisplayWarnings 10%nat = (11%nat, Returned tt)) by reflexivity.
  split; [auto|].
  pose proof (exception_is_logged_and_warnings_displayed _ _ _ _ _ _ _ _ _ Hnz Hp Hr Hd)
    as Hc.
  cbv zeta in Hc. destruct Hc as [_ Hc]. exact Hc.
Defined.

Lemma coverage_merged_and_exported_whatever_exit_code_witness :
  EvRunCoverage (runCoverageSettings exits_with_3 (app_exe 3)) (Returned model_of_3)
    ∈ trace (Run exits_with_3 0%nat) /\
  exists pre rm post,
    trace (Run exits_with_3 0%nat) =
      pre ++ EvRunCoverage (runCoverageSettings exits_with_3 (app_exe 3)) (Returned model_of_3)
          :: EvMerge (loaded pre ++ [model_of_3]) rm :: post.
Proof.
  assert (Hin : EvRunCoverage (runCoverageSettings exits_with_3 (app_exe 3))
                  (Returned model_of_3) ∈ trace (Run exits_with_3 0%nat))
    by elem_of_trace.
  split; [exact Hin|].
  pose proof (coverage_merged_and_exported_whatever_exit_code _ _ _ _ Hin) as Hc.
  cbv zeta in Hc. destruct Hc as (pre & rm & post & Ht & _). eauto.
Defined.


Lemma merge_commutative_associative_idempotent_witness :
  [run_a; run_b] ≡ₚ [run_b; run_a] /\
  forall m f n,
    CoverageModel.lineHit (CoverageModel.Merge [run_a; run_b]) m f n =
    CoverageModel.lineHit (CoverageModel.Merge [run_b; run_a]) m f n.
Proof.
  assert (Hp : [run_a; run_b] ≡ₚ [run_b; run_a]) by apply perm_swap.
  split; [exact Hp|].
  apply (merge_commutative_associative_idempotent _ _ run_a run_b run_a Hp).
Defined.

Lemma merge_only_mode_witness :
  GetStartInfo merge_only = None /\
  outcome (Run merge_only 0%nat) = Returned 0 /\
  forall s rc, EvRunCoverage s rc ∉ trace (Run merge_only 0%nat).
Proof.
  assert (Hs : GetStartInfo merge_only = None) by reflexivity.
  split; [exact Hs|].
  pose proof (merge_only_mode merge_only 0%nat Hs) as Hc.
  cbv zeta in Hc. destruct Hc as (Hno & _ & Hclean).
  split; [|exact Hno].
  destruct Hclean as (ds & m & m' & ta & te & _ & _ & _ & _ & _ & Ho); [clean_trace|exact Ho].
Defined.

Lemma export_output_path_witness :
  GetDefaultPathPrefix exits_with_3 = "MyApp" /\
  forall ty c out ro,
    EvExport ty c out ro ∈ trace (Export exits_with_3 model_of_3 0%nat) -> c = model_of_3.
Proof.
  split; [reflexivity|].
  intros ty c out ro Hin.
  pose proof (export_output_path exits_with_3 model_of_3 0%nat) as Hc.
  cbv zeta in Hc. destruct Hc as (_ & Hev & _).
  destruct (Hev ty c out ro Hin) as [Heq _]. exact Heq.
Defined.

(** * The further properties on the bench *)

Lemma unreadable_snapshot_aborts_run_witness :
  EvDeserialize "corrupt.cov" "Cannot extract coverage data from corrupt.cov"
    (Thrown (StdException "Cannot extract coverage data from corrupt.cov"))
    ∈ trace (Run second_unreadable 0%nat) /\
  outcome (Run second_unreadable 0%nat) =
    Thrown (StdException "Cannot extract coverage data from corrupt.cov") /\
  forall s rc, EvRunCoverage s rc ∉ trace (Run second_unreadable 0%nat).
Proof.
  assert (Hin : EvDeserialize "corrupt.cov" "Cannot extract coverage data from corrupt.cov"
                  (Thrown (StdException "Cannot extract coverage data from corrupt.cov"))
                ∈ trace (Run second_unreadable 0%nat)) by elem_of_trace.
  split; [exact Hin|].
  pose proof (unreadable_snapshot_aborts_run _ _ _ _ _ Hin) as Hc.
  cbv zeta in Hc. destruct Hc as (Ho & _ & Hl & _). auto.
Defined.

Lemma export_fails_only_with_collaborator_witness :
  outcome (Export unwritable model_of_3 0%nat) = Thrown (StdException "Cannot write") /\
  exists pre ev, trace (Export unwritable model_of_3 0%nat) = pre ++ [ev] /\
                 thrown ev = Some (StdException "Cannot write") /\ is_export_event ev = true.
Proof.
  assert (Ho : outcome (Export unwritable model_of_3 0%nat)
               = Thrown (StdException "Cannot write")) by reflexivity.
  split; [exact Ho|].
  apply (export_fails_only_with_collaborator unwritable model_of_3 0%nat _ Ho).
Defined.

Lemma runner_settings_carry_options_witness :
  EvRunCoverage (runCoverageSettings exits_with_3 (app_exe 3)) (Returned model_of_3)
    ∈ trace (Run exits_with_3 0%nat) /\
  GetStartInfo exits_with_3 =
    Some (rcs_startInfo (runCoverageSettings exits_with_3 (app_exe 3))).
Proof.
  assert (Hin : EvRunCoverage (runCoverageSettings exits_with_3 (app_exe 3))
                  (Returned model_of_3) ∈ trace (Run exits_with_3 0%nat))
    by elem_of_trace.
  split; [exact Hin|].
  apply (runner_settings_carry_options _ _ _ _ Hin).
Defined.

Lemma pipeline_exceptions_never_escape_witness :
  outcome (@OpenCppCoverage_Run _ broken_display exits_with_3_argv 0%nat)
    = Thrown (StdException "Cannot display") /\
  (trace (@OpenCppCoverage_Run _ broken_display exits_with_3_argv 0%nat)
     = [EvParse exits_with_3_argv (Thrown (StdException "Cannot display"))] \/
   exists pre, trace (@OpenCppCoverage_Run _ broken_display exits_with_3_argv 0%nat)
               = pre ++ [EvDisplayWarnings (Thrown (StdException "Cannot display"))]).
Proof.
  assert (Ho : outcome (@OpenCppCoverage_Run _ broken_display exits_with_3_argv 0%nat)
               = Thrown (StdException "Cannot display")) by reflexivity.
  split; [exact Ho|].
  apply (@pipeline_exceptions_never_escape _ broken_display exits_with_3_argv 0%nat _ Ho).
Defined.

Lemma warnings_displayed_once_when_options_parsed_witness :
  EvParse unwritable_argv (Returned (Some unwritable))
    ∈ trace (OpenCppCoverage_Run unwritable_argv 0%nat) /\
  exists rd, omap display_of (trace (OpenCppCoverage_Run unwritable_argv 0%nat)) = [rd].
Proof.
  assert (Hin : EvParse unwritable_argv (Returned (Some unwritable))
                ∈ trace (OpenCppCoverage_Run unwritable_argv 0%nat)) by elem_of_trace.
  split; [exact Hin|].
  pose proof (warnings_displayed_once_when_options_parsed _ _ _ Hin) as Hc.
  cbv zeta in Hc. destruct Hc as (rd & Hd & _). eauto.
Defined.

Lemma error_logged_iff_status_not_zero_witness :
  (FailureExitCode <> 0 /\
   outcome (OpenCppCoverage_Run unwritable_argv 0%nat) = Returned 57005) /\
  (trace (OpenCppCoverage_Run unwritable_argv 0%nat)
     = [EvParse unwritable_argv (Returned None)] \/
   exists msg, omap error_of (trace (OpenCppCoverage_Run unwritable_argv 0%nat)) = [msg]).
Proof.
  assert (Hnz : FailureExitCode <> 0) by discriminate.
  assert (Ho : outcome (OpenCppCoverage_Run unwritable_argv 0%nat) = Returned 57005)
    by reflexivity.
  split; [auto|].
  pose proof (error_logged_iff_status_not_zero unwritable_argv 0%nat 57005) as Hc.
  cbv zeta in Hc. destruct (Hc Hnz Ho) as [_ Hne]. apply Hne. discriminate.
Defined.

Lemma status_is_target_exit_code_witness :
  (clean (trace (OpenCppCoverage_Run exits_with_3_argv 0%nat)) /\
   EvRunCoverage
     (runCoverageSettings
        (options_of (Some (app_exe 3)) [] [mkOptionsExport Binary None] Normal false false)
        (app_exe 3))
     (Returned model_of_3) ∈ trace (OpenCppCoverage_Run exits_with_3_argv 0%nat)) /\
  outcome (OpenCppCoverage_Run exits_with_3_argv 0%nat) = Returned 3.
Proof.
  assert (Hc : clean (trace (OpenCppCoverage_Run exits_with_3_argv 0%nat)))
    by (vm_compute; repeat constructor).
  assert (Hin : EvRunCoverage
     (runCoverageSettings
        (options_of (Some (app_exe 3)) [] [mkOptionsExport Binary None] Normal false false)
        (app_exe 3))
     (Returned model_of_3) ∈ trace (OpenCppCoverage_Run exits_with_3_argv 0%nat))
    by (vm_compute; elem_of_trace).
  split; [auto|].
  apply (status_is_target_exit_code _ _ _ _ Hc Hin).
Defined.

Lemma merger_input_witness :
  EvMerge [mkSnapshot ["a.cov"] 0; model_of_3]
          (Returned (mkSnapshot ["a.cov"; "C:\Dev\MyApp.exe"] 0))
    ∈ trace (Run exits_with_3 0%nat) /\
  exists l, [mkSnapshot ["a.cov"] 0; model_of_3]
            = loaded (trace (Run exits_with_3 0%nat)) ++ option_list l.
Proof.
  assert (Hin : EvMerge [mkSnapshot ["a.cov"] 0; model_of_3]
                  (Returned (mkSnapshot ["a.cov"; "C:\Dev\MyApp.exe"] 0))
                ∈ trace (Run exits_with_3 0%nat)) by elem_of_trace.
  split; [exact Hin|].
  pose proof (merger_input _ _ _ _ Hin) as Hc.
  cbv zeta in Hc. destruct Hc as (l & Hd & _). eauto.
Defined.

Lemma default_path_only_without_output_path_witness :
  EvGetDefaultPath Binary "MyApp" (Returned "MyApp.cov")
    ∈ trace (Export exits_with_3 model_of_3 0%nat) /\
  "MyApp" = GetDefaultPathPrefix exits_with_3.
Proof.
  assert (Hin : EvGetDefaultPath Binary "MyApp" (Returned "MyApp.cov")
                ∈ trace (Export exits_with_3 model_of_3 0%nat)) by elem_of_trace.
  split; [exact Hin|].
  apply (default_path_only_without_output_path _ _ _ _ _ _ Hin).
Defined.
